(** * UpkieServos: per-joint command tables and the action translator

    Shallow embedding of [upkie/envs/upkie_servos.py].

    - Python dictionaries are finite maps ([gmap]) keyed by strings.
    - Scalars (joint positions, velocities, torques, gains) are rational
      numbers: the code only compares, negates and copies them. The
      conversion to single precision made by the space descriptors is a
      parameter, [np_float32].
    - Exceptions are values of [Exn]; construction runs in the error monad
      [Exn + _], the translator in a state-and-error monad over a [Store]
      holding the objects the method can reach and the warning log. *)

From Stdlib Require Import QArith Lqa.
From stdpp Require Import gmap strings list fin_maps.

Local Open Scope string_scope.
Local Open Scope list_scope.

(** ** Class constants *)

Definition ACTION_KEYS : list string :=
  ["position"; "velocity"; "feedforward_torque";
   "kp_scale"; "kd_scale"; "maximum_torque"].

Definition JOINT_NAMES : list string :=
  ["left_hip"; "left_knee"; "left_wheel";
   "right_hip"; "right_knee"; "right_wheel"].

(** ** Exceptions *)

(** [ModelError] is raised with a message interpolating the class tuple
    [JOINT_NAMES] and the model's joint list; the embedding keeps the two
    interpolated values. [KeyError] and [IndexError] are the built-in
    exceptions of dictionary and sequence subscription, [ValueError] the one
    [spaces.Box] raises for a low end above its high end. *)
Inductive Exn : Type :=
| ModelError (expected got : list string)
| ActionError (msg : string)
| KeyError (key : string)
| IndexError
| ValueError.

#[global] Instance Exn_eq_dec : EqDecision Exn.
Proof. solve_decision. Defined.

#[global] Instance exc_ret : MRet (sum Exn) := fun _ x => inr x.
#[global] Instance exc_bind : MBind (sum Exn) := fun _ _ f m =>
  match m with
  | inl e => inl e
  | inr x => f x
  end.

(** Subscription [d[k]] of a dictionary. *)
Definition getitem {V} (d : gmap string V) (k : string) : Exn + V :=
  match d !! k with
  | Some v => inr v
  | None => inl (KeyError k)
  end.

(** Subscription [a[i]] of a sequence by a non-negative index. *)
Definition index {V} (a : list V) (i : nat) : Exn + V :=
  match a !! i with
  | Some v => inr v
  | None => inl IndexError
  end.

(** ** Tactics for the two fixed lists of keys *)

Ltac in_list :=
  apply list_elem_of_In; simpl; repeat (first [left; reflexivity | right]).

Ltac each_key H :=
  unfold ACTION_KEYS in H; set_unfold in H;
  destruct H as [->|[->|[->|[->|[->|[->|[]]]]]]].

Ltac each_joint H :=
  unfold JOINT_NAMES in H; set_unfold in H;
  destruct H as [->|[->|[->|[->|[->|[->|[]]]]]]].

(** ** Scalars *)

Definition Qltb (x y : Q) : bool := negb (Qle_bool y x).

(** ** The kinematic model *)

(** What the constructor reads from the loaded robot: the model's name list
    (whose first entry is the universe joint), its joints with their
    configuration and tangent indices, and the four limit vectors returned
    by [box_position_limits], [box_velocity_limits] and
    [box_torque_limits]. *)
Record JointModel : Type := { idx_q : nat; idx_v : nat }.

Record Model : Type := {
  names : list string;
  joints : list JointModel;
  q_min : list Q;
  q_max : list Q;
  v_max : list Q;
  tau_max : list Q;
}.

(** [model.getJointId(name)]: position of the first joint called [name],
    the number of joints when there is none. *)
Fixpoint index_of (name : string) (l : list string) : nat :=
  match l with
  | [] => 0
  | x :: l' => if decide (x = name) then 0 else S (index_of name l')
  end.

Definition getJointId (m : Model) (name : string) : nat :=
  index_of name (names m).

(** [list(model.names)[1:]] *)
Definition joint_names (m : Model) : list string := tail (names m).

(** The limits of one joint as the constructor reads them:
    [(q_min, q_max, v_max, tau_max)] at the joint's indices. *)
Definition joint_limits (m : Model) (name : string) : option (Q * Q * Q * Q) :=
  joint ← joints m !! getJointId m name;
  tau ← tau_max m !! idx_v joint;
  qhi ← q_max m !! idx_q joint;
  v ← v_max m !! idx_v joint;
  qlo ← q_min m !! idx_q joint;
  Some (qlo, qhi, v, tau).

(** Invariants of a loaded model: one joint per name, and every joint's
    indices inside the limit vectors. *)
Definition wf_model (m : Model) : Prop :=
  length (joints m) = length (names m) /\
  Forall (fun j =>
    (idx_q j < length (q_min m))%nat /\ (idx_q j < length (q_max m))%nat /\
    (idx_v j < length (v_max m))%nat /\ (idx_v j < length (tau_max m))%nat)
    (joints m).

(** The limits are consistent: [q_min <= q_max], [0 <= v_max] and
    [0 <= tau_max] at every joint of the model. *)
Definition joint_limits_ok (m : Model) (name : string) : bool :=
  match joint_limits m name with
  | Some (qlo, qhi, v, tau) =>
      Qle_bool qlo qhi && Qle_bool 0 v && Qle_bool 0 tau
  | None => true
  end.

Definition limits_ok (m : Model) : bool :=
  forallb (joint_limits_ok m) (joint_names m).

(** ** Space descriptors *)

Inductive Dtype : Type := float32.

(** [spaces.Box(low, high, shape, dtype)] with a scalar range. *)
Record Box : Type := {
  low : Q;
  high : Q;
  shape : list nat;
  dtype : Dtype;
}.

(** ** The environment and the translator's monad *)

(** The attributes set by [__init__] (the robot wrapper is kept by the
    model argument). *)
Record UpkieServos : Type := {
  action_space : gmap string (gmap string Box);
  observation_space : gmap string (gmap string Box);
  default_action : gmap string (gmap string Q);
  max_action : gmap string (gmap string Q);
  min_action : gmap string (gmap string Q);
}.

(** A clamp warning as it is logged: the label, the value received and the
    value it was replaced with. *)
Record Warning : Type := {
  w_label : string;
  w_value : Q;
  w_clamped : Q;
}.

(** The objects [get_spine_action] can reach: its argument, the instance
    attributes, and the log the warnings go to. *)
Record Store : Type := {
  env_action : gmap string (gmap string Q);
  self : UpkieServos;
  log : list Warning;
}.

Record M (A : Type) : Type := MkM { run : Store -> (Exn + A) * Store }.
Arguments MkM {A} _.
Arguments run {A} _ _.

#[global] Instance M_ret : MRet M := fun _ x => MkM (fun st => (inr x, st)).
#[global] Instance M_bind : MBind M := fun _ _ f m =>
  MkM (fun st =>
    match run m st with
    | (inl e, st') => (inl e, st')
    | (inr x, st') => run (f x) st'
    end).

(** Evaluate an expression over the store. *)
Definition read {A} (f : Store -> A) : M A := MkM (fun st => (inr (f st), st)).

(** An expression that returns or raises without touching the store. *)
Definition lift {A} (r : Exn + A) : M A := MkM (fun st => (r, st)).

Definition raise {A} (e : Exn) : M A := lift (inl e).

(** [logging.warning(...)] *)
Definition warn (w : Warning) : M unit :=
  MkM (fun st =>
    (inr tt, {| env_action := env_action st; self := self st;
                log := log st ++ [w] |})).

(** [try: body except KeyError: handler] *)
Definition try_except_KeyError {A} (body : M A) (handler : string -> M A) : M A :=
  MkM (fun st =>
    match run body st with
    | (inl (KeyError k), st') => run (handler k) st'
    | r => r
    end).

(** [for x in xs: s = body(x, s)], the loop's local variables threaded
    through as [s]. *)
Fixpoint for_ {A S} (xs : list A) (body : A -> S -> M S) (s : S) : M S :=
  match xs with
  | [] => mret s
  | x :: xs' => s' ← body x s; for_ xs' body s'
  end.

(** ** Clamping *)

(** Modelled from the spec: [clamp_and_warn] of [upkie/utils/clamp.py],
    which is not among the sources. The resolved value is clamped into
    [[lower, upper]]; when it was outside, a warning carrying the label,
    the original value and the clamped value is emitted and the call
    still returns the clamped value. *)
Definition clamp_and_warn (value lower upper : Q) (label : string) : M Q :=
  if Qltb upper value then
    _ ← warn {| w_label := label; w_value := value; w_clamped := upper |};
    mret upper
  else if Qltb value lower then
    _ ← warn {| w_label := label; w_value := value; w_clamped := lower |};
    mret lower
  else mret value.

(** ** get_spine_action *)

Definition dquote : string := String (Ascii.ascii_of_nat 34) EmptyString.

(** [f'Missing key "{key}" required for joint "{joint}"'] *)
Definition missing_key_message (key joint : string) : string :=
  "Missing key " +:+ dquote +:+ key +:+ dquote
  +:+ " required for joint " +:+ dquote +:+ joint +:+ dquote.

(** [f"{joint}: {key}"] *)
Definition clamp_label (joint key : string) : string :=
  joint +:+ ": " +:+ key.

(** The [try] block: the conditional expression picking the caller's value
    or the default, any [KeyError] turned into an [ActionError]. *)
Definition resolve (joint key : string) : M Q :=
  try_except_KeyError
    (a ← read env_action;
     entry ← lift (getitem a joint);
     if bool_decide (key ∈ dom entry) then
       a' ← read env_action;
       entry' ← lift (getitem a' joint);
       lift (getitem entry' key)
     else
       d ← read (fun st => default_action (self st));
       dj ← lift (getitem d joint);
       lift (getitem dj key))
    (fun _ => raise (ActionError (missing_key_message key joint))).

(** Body of [for key in self.ACTION_KEYS]. *)
Definition servo_step (joint key : string) (servo_action : gmap string Q)
    : M (gmap string Q) :=
  action ← resolve joint key;
  mn ← read (fun st => min_action (self st));
  mnj ← lift (getitem mn joint);
  lower ← lift (getitem mnj key);
  mx ← read (fun st => max_action (self st));
  mxj ← lift (getitem mx joint);
  upper ← lift (getitem mxj key);
  v ← clamp_and_warn action lower upper (clamp_label joint key);
  mret (<[key := v]> servo_action).

(** Body of [for joint in self.JOINT_NAMES]. *)
Definition joint_step (joint : string)
    (spine_action : gmap string (gmap string (gmap string Q)))
    : M (gmap string (gmap string (gmap string Q))) :=
  servo_action ← for_ ACTION_KEYS (servo_step joint) ∅;
  servo ← lift (getitem spine_action "servo");
  mret (<["servo" := <[joint := servo_action]> servo]> spine_action).

Definition get_spine_action : M (gmap string (gmap string (gmap string Q))) :=
  for_ JOINT_NAMES joint_step {["servo" := ∅]}.

(** ** Vocabulary of the translator's properties *)

(** The store after more warnings were logged. *)
Definition add_log (st : Store) (w : list Warning) : Store :=
  {| env_action := env_action st; self := self st; log := log st ++ w |}.

(** [t[joint][key]] when both subscriptions succeed. *)
Definition bound (t : gmap string (gmap string Q)) (joint key : string)
    : option Q :=
  t !! joint ≫= (.!! key).

(** The value the [try] block resolves for [(joint, key)], if any. *)
Definition value_at (st : Store) (joint key : string) : option Q :=
  entry ← env_action st !! joint;
  match entry !! key with
  | Some v => Some v
  | None => bound (default_action (self st)) joint key
  end.

Definition clamp (v lo hi : Q) : Q :=
  if Qltb hi v then hi else if Qltb v lo then lo else v.

Definition clamp_log (v lo hi : Q) (label : string) : list Warning :=
  if Qltb hi v then [{| w_label := label; w_value := v; w_clamped := hi |}]
  else if Qltb v lo then [{| w_label := label; w_value := v; w_clamped := lo |}]
  else [].

(** The value written at [(joint, key)] and the warnings logged for it. *)
Definition out_at (st : Store) (joint key : string) : option Q :=
  v ← value_at st joint key;
  lo ← bound (min_action (self st)) joint key;
  hi ← bound (max_action (self st)) joint key;
  Some (clamp v lo hi).

Definition warn_at (st : Store) (joint key : string) : list Warning :=
  match value_at st joint key,
        bound (min_action (self st)) joint key,
        bound (max_action (self st)) joint key with
  | Some v, Some lo, Some hi => clamp_log v lo hi (clamp_label joint key)
  | _, _, _ => []
  end.

Definition joint_warnings (st : Store) (joint : string) : list Warning :=
  flat_map (warn_at st joint) ACTION_KEYS.

Definition joint_ok (st : Store) (joint : string) : Prop :=
  forall key, key ∈ ACTION_KEYS -> is_Some (out_at st joint key).

(** What a finished joint entry of the batch looks like. *)
Definition servo_entry (st : Store) (joint : string) (sa : gmap string Q) : Prop :=
  (forall key, key ∈ ACTION_KEYS -> sa !! key = out_at st joint key) /\
  (forall key, key ∉ ACTION_KEYS -> sa !! key = None).

(** The action supplies both required fields of a joint. *)
Definition supplies_required (a : gmap string (gmap string Q)) (joint : string)
    : Prop :=
  is_Some (bound a joint "position") /\ is_Some (bound a joint "velocity").

#[global] Instance supplies_required_dec a joint :
  Decision (supplies_required a joint).
Proof. unfold supplies_required. apply _. Defined.

(** A batch with all six fields for all six joints. *)
Definition complete_batch (batch : gmap string (gmap string (gmap string Q)))
    : Prop :=
  exists servo,
    batch = {["servo" := servo]} /\
    dom servo = list_to_set JOINT_NAMES /\
    forall joint sa, servo !! joint = Some sa ->
      dom sa = list_to_set ACTION_KEYS.

Definition set_log (st : Store) (l : list Warning) : Store :=
  {| env_action := env_action st; self := self st; log := l |}.

(** A computation whose result and emitted warnings do not depend on the
    log, and which leaves the rest of the store as it found it. *)
Definition log_only {A} (c : M A) : Prop :=
  forall st, exists r w, forall l,
    run c (set_log st l) = (r, set_log st (l ++ w)).

(** The keys processed before the first required field a joint lacks. *)
Definition keys_before (key : string) : list string :=
  if decide (key = "velocity") then ["position"] else [].

(** The keys of the dictionary literal stored in [default_action]. *)
Definition DEFAULT_KEYS : list string :=
  ["feedforward_torque"; "kp_scale"; "kd_scale"; "maximum_torque"].

(** [space[joint][key]] of a space descriptor. *)
Definition box_at (sp : gmap string (gmap string Box)) (joint key : string)
    : option Box :=
  sp !! joint ≫= (.!! key).

(** [batch["servo"]], empty when the key is absent. *)
Definition servo_of (batch : gmap string (gmap string (gmap string Q)))
    : gmap string (gmap string Q) :=
  default ∅ (batch !! "servo").

(** The store of a call with another action. *)
Definition with_action (st : Store) (a : gmap string (gmap string Q)) : Store :=
  {| env_action := a; self := self st; log := log st |}.

Definition succeeded {A} (r : Exn + A) : bool :=
  match r with
  | inr _ => true
  | inl _ => false
  end.

(** The value of a returned batch at a joint and field. *)
Definition batch_value
    (r : Exn + gmap string (gmap string (gmap string Q)))
    (joint key : string) : option Q :=
  match r with
  | inr batch => servo ← batch !! "servo"; bound servo joint key
  | inl _ => None
  end.

(** Executable form of the premise of the in-range theorem. *)
Definition in_range_at (st : Store) (joint key : string) : bool :=
  match bound (env_action st) joint key,
        bound (min_action (self st)) joint key,
        bound (max_action (self st)) joint key with
  | Some v, Some lo, Some hi => Qle_bool lo v && Qle_bool v hi
  | _, _, _ => false
  end.


(** * Construction *)

Section Float32.

(** The five dictionaries filled by the loop of [__init__]. *)
Record Building : Type := {
  b_action_space : gmap string (gmap string Box);
  b_default_action : gmap string (gmap string Q);
  b_max_action : gmap string (gmap string Q);
  b_min_action : gmap string (gmap string Q);
  b_observation_space : gmap string (gmap string Box);
}.

Definition empty_building : Building :=
  {| b_action_space := ∅; b_default_action := ∅; b_max_action := ∅;
     b_min_action := ∅; b_observation_space := ∅ |}.

(** The two dictionaries the inner loop
    [for space in (action_space, observation_space)] ranges over. *)
Inductive SpaceRef : Type := the_action_space | the_observation_space.

(** [space[name] = d] *)
Definition set_space (space : SpaceRef) (name : string)
    (d : gmap string Box) (b : Building) : Building :=
  match space with
  | the_action_space =>
      {| b_action_space := <[name := d]> (b_action_space b);
         b_default_action := b_default_action b;
         b_max_action := b_max_action b;
         b_min_action := b_min_action b;
         b_observation_space := b_observation_space b |}
  | the_observation_space =>
      {| b_action_space := b_action_space b;
         b_default_action := b_default_action b;
         b_max_action := b_max_action b;
         b_min_action := b_min_action b;
         b_observation_space := <[name := d]> (b_observation_space b) |}
  end.

(** [np.float32(x)]: the space descriptors keep their ends in single
    precision. The conversion is a parameter of the development, of which
    only the monotonicity is used. *)
Variable np_float32 : Q -> Q.

Hypothesis np_float32_mono :
  forall x y, (x <= y)%Q -> (np_float32 x <= np_float32 y)%Q.

(** [spaces.Box(low=lo, high=hi, shape=(1,), dtype=np.float32)]: both ends
    are converted to the dtype, and a low end above the high end is
    refused. *)
Definition new_Box (lo hi : Q) : Exn + Box :=
  let l := np_float32 lo in
  let h := np_float32 hi in
  if Qltb h l then inl ValueError
  else inr {| low := l; high := h; shape := [1%nat]; dtype := float32 |}.

(** [spaces.Dict({...})] of the six boxes of a joint, built in the order
    of the dictionary literal. *)
Definition joint_space (qlo qhi v tau : Q) : Exn + gmap string Box :=
  position ← new_Box qlo qhi;
  velocity ← new_Box (- v)%Q v;
  feedforward_torque ← new_Box (- tau)%Q tau;
  kp_scale ← new_Box 0%Q 1%Q;
  kd_scale ← new_Box 0%Q 1%Q;
  maximum_torque ← new_Box 0%Q tau;
  mret (<["position" := position]>
       (<["velocity" := velocity]>
       (<["feedforward_torque" := feedforward_torque]>
       (<["kp_scale" := kp_scale]>
       (<["kd_scale" := kd_scale]>
       (<["maximum_torque" := maximum_torque]> ∅)))))).

(** [for space in (action_space, observation_space): space[name] = ...],
    a new [spaces.Dict] being built at every turn. *)
Fixpoint space_loop (spaces : list SpaceRef) (name : string)
    (qlo qhi v tau : Q) (b : Building) : Exn + Building :=
  match spaces with
  | [] => mret b
  | space :: rest =>
      d ← joint_space qlo qhi v tau;
      space_loop rest name qlo qhi v tau (set_space space name d b)
  end.

Definition joint_default (tau : Q) : gmap string Q :=
  <["feedforward_torque" := 0%Q]>
  (<["kp_scale" := 1%Q]>
  (<["kd_scale" := 1%Q]>
  (<["maximum_torque" := tau]> ∅))).

Definition joint_max (qhi v tau : Q) : gmap string Q :=
  <["position" := qhi]>
  (<["velocity" := v]>
  (<["feedforward_torque" := tau]>
  (<["kp_scale" := 1%Q]>
  (<["kd_scale" := 1%Q]>
  (<["maximum_torque" := tau]> ∅))))).

Definition joint_min (qlo v tau : Q) : gmap string Q :=
  <["position" := qlo]>
  (<["velocity" := (- v)%Q]>
  (<["feedforward_torque" := (- tau)%Q]>
  (<["kp_scale" := 0%Q]>
  (<["kd_scale" := 0%Q]>
  (<["maximum_torque" := 0%Q]> ∅))))).

(** Body of [for name in joint_names]. Each limit is read where the source
    first subscripts it; the later subscriptions of the same element of the
    same (never written) vector are shared with that read. *)
Definition init_joint (m : Model) (name : string) (b : Building)
    : Exn + Building :=
  joint ← index (joints m) (getJointId m name);
  tau ← index (tau_max m) (idx_v joint);
  let b1 :=
    {| b_action_space := b_action_space b;
       b_default_action := <[name := joint_default tau]> (b_default_action b);
       b_max_action := b_max_action b;
       b_min_action := b_min_action b;
       b_observation_space := b_observation_space b |} in
  qhi ← index (q_max m) (idx_q joint);
  v ← index (v_max m) (idx_v joint);
  let b2 :=
    {| b_action_space := b_action_space b1;
       b_default_action := b_default_action b1;
       b_max_action := <[name := joint_max qhi v tau]> (b_max_action b1);
       b_min_action := b_min_action b1;
       b_observation_space := b_observation_space b1 |} in
  qlo ← index (q_min m) (idx_q joint);
  let b3 :=
    {| b_action_space := b_action_space b2;
       b_default_action := b_default_action b2;
       b_max_action := b_max_action b2;
       b_min_action := <[name := joint_min qlo v tau]> (b_min_action b2);
       b_observation_space := b_observation_space b2 |} in
  space_loop [the_action_space; the_observation_space] name qlo qhi v tau b3.

Fixpoint init_loop (m : Model) (l : list string) (b : Building)
    : Exn + Building :=
  match l with
  | [] => mret b
  | name :: l' => b' ← init_joint m name b; init_loop m l' b'
  end.

(** [set(joint_names) != set(self.JOINT_NAMES)] *)
Definition joints_differ (m : Model) : bool :=
  bool_decide ((list_to_set (joint_names m) : gset string)
               ≠ list_to_set JOINT_NAMES).

Definition init (m : Model) : Exn + UpkieServos :=
  if joints_differ m then inl (ModelError JOINT_NAMES (joint_names m))
  else
    b ← init_loop m (joint_names m) empty_building;
    mret {| action_space := b_action_space b;
            observation_space := b_observation_space b;
            default_action := b_default_action b;
            max_action := b_max_action b;
            min_action := b_min_action b |}.

(** What the five dictionaries hold for one joint name. *)
Definition row (b : Building) (name : string) :=
  (b_default_action b !! name, b_max_action b !! name, b_min_action b !! name,
   b_action_space b !! name, b_observation_space b !! name).

(** The box [spaces.Box] returns when it accepts its ends, and whether it
    does. *)
Definition the_box (lo hi : Q) : Box :=
  {| low := np_float32 lo; high := np_float32 hi;
     shape := [1%nat]; dtype := float32 |}.

Definition box_ok (lo hi : Q) : bool :=
  negb (Qltb (np_float32 hi) (np_float32 lo)).

(** The six boxes of a joint, and whether all of them are accepted. *)
Definition joint_boxes (qlo qhi v tau : Q) : gmap string Box :=
  <["position" := the_box qlo qhi]>
  (<["velocity" := the_box (- v)%Q v]>
  (<["feedforward_torque" := the_box (- tau)%Q tau]>
  (<["kp_scale" := the_box 0%Q 1%Q]>
  (<["kd_scale" := the_box 0%Q 1%Q]>
  (<["maximum_torque" := the_box 0%Q tau]> ∅))))).

Definition boxes_valid (qlo qhi v tau : Q) : bool :=
  box_ok qlo qhi && box_ok (- v)%Q v && box_ok (- tau)%Q tau
  && box_ok 0%Q 1%Q && box_ok 0%Q 1%Q && box_ok 0%Q tau.

Definition row_of_limits (lim : Q * Q * Q * Q) :=
  let '(qlo, qhi, v, tau) := lim in
  (Some (joint_default tau), Some (joint_max qhi v tau),
   Some (joint_min qlo v tau),
   Some (joint_boxes qlo qhi v tau), Some (joint_boxes qlo qhi v tau)).

Definition env_row (env : UpkieServos) (name : string) :=
  (default_action env !! name, max_action env !! name, min_action env !! name,
   action_space env !! name, observation_space env !! name).

(** * Theorems *)

(** ** Scalars *)

Lemma Qltb_lt x y : Qltb x y = true <-> (x < y)%Q.
Proof.
  unfold Qltb. rewrite negb_true_iff, <- not_true_iff_false, Qle_bool_iff.
  split; [apply Qnot_le_lt | apply Qlt_not_le].
Qed.

Lemma Qltb_ge x y : Qltb x y = false <-> (y <= x)%Q.
Proof.
  unfold Qltb. rewrite negb_false_iff. apply Qle_bool_iff.
Qed.

(** ** Construction *)

Lemma new_Box_eq lo hi :
  new_Box lo hi = if box_ok lo hi then inr (the_box lo hi) else inl ValueError.
Proof. unfold new_Box, box_ok, the_box. by destruct (Qltb _ _). Qed.

Lemma joint_space_eq qlo qhi v tau :
  joint_space qlo qhi v tau =
  if boxes_valid qlo qhi v tau then inr (joint_boxes qlo qhi v tau)
  else inl ValueError.
Proof.
  unfold joint_space, boxes_valid, joint_boxes. rewrite !new_Box_eq.
  destruct (box_ok qlo qhi); [|done].
  destruct (box_ok (- v) v); [|done].
  destruct (box_ok (- tau) tau); [|done].
  destruct (box_ok 0 1); [|done].
  by destruct (box_ok 0 tau).
Qed.

Lemma init_joint_eq m name b :
  init_joint m name b =
  match joint_limits m name with
  | Some (qlo, qhi, v, tau) =>
      if boxes_valid qlo qhi v tau then
        inr {| b_action_space :=
                 <[name := joint_boxes qlo qhi v tau]> (b_action_space b);
               b_default_action :=
                 <[name := joint_default tau]> (b_default_action b);
               b_max_action := <[name := joint_max qhi v tau]> (b_max_action b);
               b_min_action := <[name := joint_min qlo v tau]> (b_min_action b);
               b_observation_space :=
                 <[name := joint_boxes qlo qhi v tau]> (b_observation_space b) |}
      else inl ValueError
  | None => inl IndexError
  end.
Proof.
  unfold init_joint, joint_limits, index.
  destruct (joints m !! getJointId m name) as [j|]; simpl; [|done].
  destruct (tau_max m !! idx_v j) as [tau|]; simpl; [|done].
  destruct (q_max m !! idx_q j) as [qhi|]; simpl; [|done].
  destruct (v_max m !! idx_v j) as [v|]; simpl; [|done].
  destruct (q_min m !! idx_q j) as [qlo|]; simpl; [|done].
  rewrite !joint_space_eq. by destruct (boxes_valid qlo qhi v tau).
Qed.

Lemma init_joint_row m name b b' :
  init_joint m name b = inr b' ->
  (exists lim, joint_limits m name = Some lim /\
               row b' name = row_of_limits lim) /\
  (forall other, other <> name -> row b' other = row b other).
Proof.
  rewrite init_joint_eq.
  destruct (joint_limits m name) as [[[[qlo qhi] v] tau]|]; [|done].
  destruct (boxes_valid qlo qhi v tau); [|done].
  intros [= <-]. split.
  - eexists. split; [done|]. unfold row; simpl.
    by rewrite !lookup_insert_eq.
  - intros other Hne. unfold row; simpl.
    by rewrite !lookup_insert_ne.
Qed.

Lemma init_loop_row m l : forall b b',
  init_loop m l b = inr b' ->
  forall name,
    (name ∈ l -> exists lim, joint_limits m name = Some lim /\
                              row b' name = row_of_limits lim) /\
    (name ∉ l -> row b' name = row b name).
Proof.
  induction l as [|x l IH]; simpl; intros b b' Hrun name.
  - injection Hrun as <-. split; [|done]. by intros ?%elem_of_nil.
  - destruct (init_joint m x b) as [e|b1] eqn:Hx; simpl in Hrun; [done|].
    destruct (init_joint_row _ _ _ _ Hx) as [Hat Hother].
    destruct (IH _ _ Hrun name) as [Hin Hout].
    split.
    + intros Hmem. destruct (decide (name ∈ l)) as [Hl|Hl]; [by apply Hin|].
      apply elem_of_cons in Hmem as [->|?]; [|done].
      rewrite (Hout Hl). done.
    + intros Hmem. apply not_elem_of_cons in Hmem as [Hne Hl].
      rewrite (Hout Hl). by apply Hother.
Qed.

Lemma init_loop_total m l : forall b,
  (forall name, name ∈ l ->
     exists qlo qhi v tau,
       joint_limits m name = Some (qlo, qhi, v, tau) /\
       boxes_valid qlo qhi v tau = true) ->
  exists b', init_loop m l b = inr b'.
Proof.
  induction l as [|x l IH]; simpl; intros b Hall; [by eexists|].
  rewrite init_joint_eq.
  destruct (Hall x) as (qlo & qhi & v & tau & -> & ->); [by left|]. simpl.
  apply IH. intros name Hin. apply Hall. by right.
Qed.

Lemma init_loop_valid m l : forall b b',
  init_loop m l b = inr b' ->
  forall name, name ∈ l ->
    exists qlo qhi v tau,
      joint_limits m name = Some (qlo, qhi, v, tau) /\
      boxes_valid qlo qhi v tau = true.
Proof.
  induction l as [|x l IH]; simpl; intros b b' Hrun name Hin.
  - by apply elem_of_nil in Hin.
  - rewrite init_joint_eq in Hrun.
    destruct (joint_limits m x) as [[[[qlo qhi] v] tau]|] eqn:Hx; [|done].
    destruct (boxes_valid qlo qhi v tau) eqn:Hvalid; [|done].
    simpl in Hrun. apply elem_of_cons in Hin as [->|Hin].
    + by exists qlo, qhi, v, tau.
    + by eapply IH.
Qed.

Lemma init_loop_error m l : forall b e,
  init_loop m l b = inl e -> e = IndexError \/ e = ValueError.
Proof.
  induction l as [|x l IH]; simpl; intros b e; [done|].
  rewrite init_joint_eq.
  destruct (joint_limits m x) as [[[[qlo qhi] v] tau]|]; simpl;
    [|intros [= <-]; by left].
  destruct (boxes_valid qlo qhi v tau); simpl; [apply IH|].
  intros [= <-]. by right.
Qed.

Lemma joints_differ_false m :
  joints_differ m = false <->
  (list_to_set (joint_names m) : gset string) = list_to_set JOINT_NAMES.
Proof.
  unfold joints_differ. rewrite bool_decide_eq_false.
  split; [apply dec_stable | by intros ? ?].
Qed.

Lemma joints_match_elem m name :
  joints_differ m = false -> name ∈ joint_names m <-> name ∈ JOINT_NAMES.
Proof.
  intros Heq%joints_differ_false.
  rewrite <- (elem_of_list_to_set (C := gset string) name (joint_names m)).
  rewrite Heq. apply elem_of_list_to_set.
Qed.

(** A successful construction comes from a matching joint set and fills, for
    the six joint names and nothing else, the rows of the five tables. *)
Lemma init_inv m env :
  init m = inr env ->
  joints_differ m = false /\
  forall name,
    (name ∈ JOINT_NAMES -> exists lim, joint_limits m name = Some lim /\
                                        env_row env name = row_of_limits lim) /\
    (name ∉ JOINT_NAMES -> env_row env name = (None, None, None, None, None)).
Proof.
  unfold init. destruct (joints_differ m) eqn:Hd; [done|].
  destruct (init_loop m (joint_names m) empty_building) as [e|b] eqn:Hb;
    simpl; [done|].
  intros [= <-]. split; [done|]. intros name.
  destruct (init_loop_row _ _ _ _ Hb name) as [Hin Hout].
  unfold env_row; simpl. unfold row in Hin, Hout. split.
  - intros Hmem. apply Hin. by apply joints_match_elem.
  - intros Hmem. rewrite Hout; [done|]. by rewrite joints_match_elem.
Qed.

Lemma index_of_lt name l : name ∈ l -> (index_of name l < length l)%nat.
Proof.
  induction l as [|x l IH]; simpl; [by intros ?%elem_of_nil|].
  intros Hin. destruct (decide (x = name)); [lia|].
  apply elem_of_cons in Hin as [->|Hin]; [done|]. specialize (IH Hin). lia.
Qed.

Lemma joint_names_sub m name : name ∈ joint_names m -> name ∈ names m.
Proof.
  unfold joint_names. destruct (names m); simpl; [done|]. by right.
Qed.

Lemma wf_model_limits m name :
  wf_model m -> name ∈ joint_names m -> is_Some (joint_limits m name).
Proof.
  intros [Hlen Hall] Hin. unfold joint_limits, getJointId.
  apply joint_names_sub, index_of_lt in Hin. rewrite <- Hlen in Hin.
  apply lookup_lt_is_Some in Hin as [j Hj]. rewrite Hj; simpl.
  rewrite Forall_forall in Hall.
  destruct (Hall j) as (H1 & H2 & H3 & H4);
    [by eapply list_elem_of_lookup_2|].
  apply lookup_lt_is_Some in H1 as [? ->], H2 as [? ->],
    H3 as [? ->], H4 as [? ->]. simpl. by eexists.
Qed.

Lemma limits_ok_joint m name qlo qhi v tau :
  limits_ok m = true -> name ∈ joint_names m ->
  joint_limits m name = Some (qlo, qhi, v, tau) ->
  (qlo <= qhi /\ 0 <= v /\ 0 <= tau)%Q.
Proof.
  unfold limits_ok. rewrite forallb_forall. intros Hall Hin Hlim.
  specialize (Hall name). unfold joint_limits_ok in Hall. rewrite Hlim in Hall.
  apply list_elem_of_In in Hin. specialize (Hall Hin).
  apply andb_true_iff in Hall as [Hall H3].
  apply andb_true_iff in Hall as [H1 H2].
  by rewrite !Qle_bool_iff in *.
Qed.

Lemma box_ok_le lo hi : (lo <= hi)%Q -> box_ok lo hi = true.
Proof.
  intros Hle. unfold box_ok. apply negb_true_iff, Qltb_ge.
  by apply np_float32_mono.
Qed.

Lemma boxes_valid_limits qlo qhi v tau :
  (qlo <= qhi)%Q -> (0 <= v)%Q -> (0 <= tau)%Q ->
  boxes_valid qlo qhi v tau = true.
Proof.
  intros Hq Hv Ht. unfold boxes_valid.
  rewrite !box_ok_le; [done|lra..].
Qed.

Lemma init_succeeds m :
  wf_model m -> limits_ok m = true -> joints_differ m = false ->
  exists env, init m = inr env.
Proof.
  intros Hwf Hok Hd. unfold init. rewrite Hd.
  destruct (init_loop_total m (joint_names m) empty_building) as [b ->].
  - intros name Hin.
    destruct (wf_model_limits m name Hwf Hin) as [[[[qlo qhi] v] tau] Hlim].
    exists qlo, qhi, v, tau. split; [done|].
    destruct (limits_ok_joint m name qlo qhi v tau Hok Hin Hlim)
      as (Hq & Hv & Ht).
    by apply boxes_valid_limits.
  - simpl. by eexists.
Qed.

(** ** Running the translator *)

Lemma add_log_nil st : add_log st [] = st.
Proof. destruct st. unfold add_log; simpl. by rewrite app_nil_r. Qed.

Lemma add_log_app st w1 w2 : add_log (add_log st w1) w2 = add_log st (w1 ++ w2).
Proof. unfold add_log; simpl. by rewrite app_assoc. Qed.

Lemma run_bind {A B} (m : M A) (f : A -> M B) st :
  run (m ≫= f) st =
  match run m st with
  | (inl e, st') => (inl e, st')
  | (inr x, st') => run (f x) st'
  end.
Proof. reflexivity. Qed.

Lemma run_for_app {A S} (xs ys : list A) (body : A -> S -> M S) : forall s st,
  run (for_ (xs ++ ys) body s) st =
  match run (for_ xs body s) st with
  | (inl e, st') => (inl e, st')
  | (inr s', st') => run (for_ ys body s') st'
  end.
Proof.
  induction xs as [|x xs IH]; intros s st; [done|].
  cbn [app for_]. rewrite !run_bind.
  destruct (run (body x s) st) as [[e|s1] st1]; [done|].
  apply IH.
Qed.

Lemma run_clamp_and_warn v lo hi label st :
  run (clamp_and_warn v lo hi label) st =
  (inr (clamp v lo hi), add_log st (clamp_log v lo hi label)).
Proof.
  unfold clamp_and_warn, clamp, clamp_log.
  destruct (Qltb hi v); [done|].
  destruct (Qltb v lo); [done|].
  by rewrite add_log_nil.
Qed.

Lemma run_resolve joint key st :
  run (resolve joint key) st =
  (match value_at st joint key with
   | Some v => inr v
   | None => inl (ActionError (missing_key_message key joint))
   end, st).
Proof.
  unfold resolve, value_at, bound, try_except_KeyError, getitem; simpl.
  destruct (env_action st !! joint) as [entry|] eqn:Hentry; simpl; [|done].
  destruct (entry !! key) as [v|] eqn:Hkey.
  - rewrite bool_decide_eq_true_2 by (apply elem_of_dom; eauto).
    simpl. by rewrite Hentry, Hkey.
  - rewrite bool_decide_eq_false_2
      by (rewrite elem_of_dom, Hkey; by intros [? ?]).
    simpl. destruct (default_action (self st) !! joint) as [dj|]; simpl; [|done].
    by destruct (dj !! key).
Qed.

Lemma run_servo_step_missing joint key s st :
  value_at st joint key = None ->
  run (servo_step joint key s) st =
  (inl (ActionError (missing_key_message key joint)), st).
Proof.
  intros Hv. unfold servo_step. by rewrite run_bind, run_resolve, Hv.
Qed.

Lemma run_servo_step joint key s st v :
  out_at st joint key = Some v ->
  run (servo_step joint key s) st =
  (inr (<[key := v]> s), add_log st (warn_at st joint key)).
Proof.
  unfold out_at, warn_at, bound, servo_step. intros Hout.
  rewrite run_bind, run_resolve.
  destruct (value_at st joint key) as [x|]; simpl in Hout; [|done].
  unfold getitem. simpl.
  destruct (min_action (self st) !! joint) as [mnj|]; simpl in *; [|done].
  destruct (mnj !! key) as [lo|]; simpl in *; [|done].
  destruct (max_action (self st) !! joint) as [mxj|]; simpl in *; [|done].
  destruct (mxj !! key) as [hi|]; simpl in *; [|done].
  injection Hout as <-. by rewrite run_clamp_and_warn.
Qed.

Lemma servo_loop_ok joint keys : forall s st,
  (forall key, key ∈ keys -> is_Some (out_at st joint key)) ->
  exists s',
    run (for_ keys (servo_step joint) s) st =
      (inr s', add_log st (flat_map (warn_at st joint) keys)) /\
    (forall key, key ∈ keys -> s' !! key = out_at st joint key) /\
    (forall key, key ∉ keys -> s' !! key = s !! key).
Proof.
  induction keys as [|k keys IH]; intros s st Hall; cbn [for_ flat_map].
  - exists s. rewrite add_log_nil. split; [done|].
    split; [by intros ? ?%elem_of_nil | done].
  - destruct (Hall k) as [v Hv]; [by left|].
    rewrite run_bind, (run_servo_step _ _ _ _ _ Hv).
    destruct (IH (<[k := v]> s) (add_log st (warn_at st joint k)))
      as (s' & Hrun & Hin & Hout).
    { intros key Hkey. apply Hall. by right. }
    exists s'. split; [by rewrite Hrun, add_log_app|]. split.
    + intros key Hkey. destruct (decide (key ∈ keys)) as [Hk|Hk].
      * by rewrite (Hin key Hk).
      * apply elem_of_cons in Hkey as [->|?]; [|done].
        by rewrite (Hout k Hk), lookup_insert_eq.
    + intros key Hkey. apply not_elem_of_cons in Hkey as [Hne Hk].
      by rewrite (Hout key Hk), lookup_insert_ne.
Qed.

Lemma servo_loop_err joint ks1 k ks2 s st :
  (forall key, key ∈ ks1 -> is_Some (out_at st joint key)) ->
  value_at st joint k = None ->
  run (for_ (ks1 ++ k :: ks2) (servo_step joint) s) st =
  (inl (ActionError (missing_key_message k joint)),
   add_log st (flat_map (warn_at st joint) ks1)).
Proof.
  intros Hall Hk. rewrite run_for_app.
  destruct (servo_loop_ok joint ks1 s st Hall) as (s' & -> & _).
  cbn [for_]. rewrite run_bind. by rewrite run_servo_step_missing.
Qed.

Lemma run_joint_step_ok joint servo st :
  joint_ok st joint ->
  exists sa,
    run (joint_step joint {["servo" := servo]}) st =
      (inr {["servo" := <[joint := sa]> servo]},
       add_log st (joint_warnings st joint)) /\
    (forall key, key ∈ ACTION_KEYS -> sa !! key = out_at st joint key) /\
    (forall key, key ∉ ACTION_KEYS -> sa !! key = None).
Proof.
  intros Hok. unfold joint_step.
  destruct (servo_loop_ok joint ACTION_KEYS ∅ st Hok) as (sa & Hrun & Hin & Hout).
  exists sa. split; [|split; [done|]].
  - rewrite run_bind, Hrun. unfold getitem.
    rewrite lookup_singleton_eq. simpl. by rewrite insert_singleton_eq.
  - intros key Hkey. by rewrite (Hout key Hkey).
Qed.

Lemma run_joint_step_err joint (ks1 : list string) k ks2 sp st :
  ACTION_KEYS = (ks1 ++ k :: ks2)%list ->
  (forall key, key ∈ ks1 -> is_Some (out_at st joint key)) ->
  value_at st joint k = None ->
  run (joint_step joint sp) st =
  (inl (ActionError (missing_key_message k joint)),
   add_log st (flat_map (warn_at st joint) ks1)).
Proof.
  intros Heq Hall Hk. unfold joint_step. rewrite Heq.
  by rewrite run_bind, (servo_loop_err _ _ _ _ _ _ Hall Hk).
Qed.

Lemma spine_loop_ok js : forall servo st,
  (forall joint, joint ∈ js -> joint_ok st joint) ->
  exists servo',
    run (for_ js joint_step {["servo" := servo]}) st =
      (inr {["servo" := servo']}, add_log st (flat_map (joint_warnings st) js)) /\
    (forall joint, joint ∈ js ->
       exists sa, servo' !! joint = Some sa /\ servo_entry st joint sa) /\
    (forall joint, joint ∉ js -> servo' !! joint = servo !! joint).
Proof.
  induction js as [|j js IH]; intros servo st Hall; cbn [for_ flat_map].
  - exists servo. rewrite add_log_nil. split; [done|].
    split; [by intros ? ?%elem_of_nil | done].
  - destruct (run_joint_step_ok j servo st) as (sa & Hrun & Hsa);
      [apply Hall; by left|].
    rewrite run_bind, Hrun.
    destruct (IH (<[j := sa]> servo) (add_log st (joint_warnings st j)))
      as (servo' & Hrun' & Hin & Hout).
    { intros joint Hjoint. apply (Hall joint). by right. }
    exists servo'. split; [by rewrite Hrun', add_log_app|]. split.
    + intros joint Hjoint. destruct (decide (joint ∈ js)) as [Hj|Hj].
      * by apply Hin.
      * apply elem_of_cons in Hjoint as [->|?]; [|done].
        exists sa. by rewrite (Hout j Hj), lookup_insert_eq.
    + intros joint Hjoint. apply not_elem_of_cons in Hjoint as [Hne Hj].
      by rewrite (Hout joint Hj), lookup_insert_ne.
Qed.

Lemma spine_loop_err js1 j js2 (ks1 : list string) k ks2 servo st :
  (forall joint, joint ∈ js1 -> joint_ok st joint) ->
  ACTION_KEYS = (ks1 ++ k :: ks2)%list ->
  (forall key, key ∈ ks1 -> is_Some (out_at st j key)) ->
  value_at st j k = None ->
  run (for_ (js1 ++ j :: js2) joint_step {["servo" := servo]}) st =
  (inl (ActionError (missing_key_message k j)),
   add_log st (flat_map (joint_warnings st) js1
               ++ flat_map (warn_at st j) ks1)).
Proof.
  intros Hall Hkeys Hks1 Hk. rewrite run_for_app.
  destruct (spine_loop_ok js1 servo st Hall) as (servo' & -> & _).
  cbn [for_]. rewrite run_bind.
  rewrite (run_joint_step_err j ks1 k ks2 _ _ Hkeys); [|done..].
  by rewrite add_log_app.
Qed.

(** ** The tables of a constructed environment *)

Lemma env_tables m env joint :
  init m = inr env -> joint ∈ JOINT_NAMES ->
  exists qlo qhi v tau,
    joint_limits m joint = Some (qlo, qhi, v, tau) /\
    default_action env !! joint = Some (joint_default tau) /\
    max_action env !! joint = Some (joint_max qhi v tau) /\
    min_action env !! joint = Some (joint_min qlo v tau) /\
    action_space env !! joint = Some (joint_boxes qlo qhi v tau) /\
    observation_space env !! joint = Some (joint_boxes qlo qhi v tau).
Proof.
  intros Hinit Hin. destruct (init_inv _ _ Hinit) as [_ Hrows].
  destruct (Hrows joint) as [Hrow _].
  destruct (Hrow Hin) as ([[[qlo qhi] v] tau] & Hlim & Heq).
  exists qlo, qhi, v, tau. unfold env_row, row_of_limits in Heq.
  by injection Heq as -> -> -> -> ->.
Qed.

Lemma env_tables_limits m env joint qlo qhi v tau :
  init m = inr env -> limits_ok m = true -> joint ∈ JOINT_NAMES ->
  joint_limits m joint = Some (qlo, qhi, v, tau) ->
  (qlo <= qhi /\ 0 <= v /\ 0 <= tau)%Q.
Proof.
  intros Hinit Hok Hin Hlim. destruct (init_inv _ _ Hinit) as [Hd _].
  eapply limits_ok_joint; [done| |done]. by apply joints_match_elem.
Qed.

(** C3, as the code has it: construction raises [ModelError] exactly when
    the set of joint names of the model differs from the fixed set of six;
    the error then carries the expected names and the names the model gave.
    When the sets are equal, the construction of a well-formed model whose
    limits are consistent succeeds. *)
Theorem init_model_error (m : Model) :
  let differ :=
    (list_to_set (joint_names m) : gset string) ≠ list_to_set JOINT_NAMES in
  ((exists expected got, init m = inl (ModelError expected got)) <-> differ) /\
  (differ -> init m = inl (ModelError JOINT_NAMES (joint_names m))) /\
  (wf_model m -> limits_ok m = true -> ~ differ ->
   exists env, init m = inr env).
Proof.
  intros differ.
  assert (Hraise : differ -> init m = inl (ModelError JOINT_NAMES (joint_names m))).
  { intros Hd. unfold init, joints_differ. by rewrite bool_decide_eq_true_2. }
  split; [split|split; [done|]].
  - intros (expected & got & Hinit). intros Heq.
    apply joints_differ_false in Heq. unfold init in Hinit. rewrite Heq in Hinit.
    destruct (init_loop m (joint_names m) empty_building) as [e|b] eqn:Hb;
      simpl in Hinit; [|done].
    injection Hinit as ->. by destruct (init_loop_error _ _ _ _ Hb).
  - intros Hd. eauto.
  - intros Hwf Hok Hsame. apply init_succeeds; [done..|].
    apply joints_differ_false. by apply dec_stable.
Qed.

(** C7: for a well-formed model with the six joint names and consistent
    limits, construction succeeds and, for every joint, the bounds are the
    model's position limits, plus and minus its velocity and torque limits,
    [0, 1] for both gain scales and [0, tau_max] for the maximum torque;
    every field has [min <= max]. *)
Theorem init_bounds (m : Model) :
  wf_model m ->
  (list_to_set (joint_names m) : gset string) = list_to_set JOINT_NAMES ->
  limits_ok m = true ->
  exists env, init m = inr env /\
  forall joint, joint ∈ JOINT_NAMES ->
    exists qlo qhi v tau,
      joint_limits m joint = Some (qlo, qhi, v, tau) /\
      bound (min_action env) joint "position" = Some qlo /\
      bound (max_action env) joint "position" = Some qhi /\
      bound (min_action env) joint "velocity" = Some (- v)%Q /\
      bound (max_action env) joint "velocity" = Some v /\
      bound (min_action env) joint "feedforward_torque" = Some (- tau)%Q /\
      bound (max_action env) joint "feedforward_torque" = Some tau /\
      bound (min_action env) joint "kp_scale" = Some 0%Q /\
      bound (max_action env) joint "kp_scale" = Some 1%Q /\
      bound (min_action env) joint "kd_scale" = Some 0%Q /\
      bound (max_action env) joint "kd_scale" = Some 1%Q /\
      bound (min_action env) joint "maximum_torque" = Some 0%Q /\
      bound (max_action env) joint "maximum_torque" = Some tau /\
      forall key, key ∈ ACTION_KEYS ->
        exists lo hi,
          bound (min_action env) joint key = Some lo /\
          bound (max_action env) joint key = Some hi /\ (lo <= hi)%Q.
Proof.
  intros Hwf Hsame Hok.
  destruct (init_succeeds m Hwf Hok) as [env Hinit];
    [by apply joints_differ_false|].
  exists env. split; [done|]. intros joint Hin.
  destruct (env_tables _ _ _ Hinit Hin)
    as (qlo & qhi & v & tau & Hlim & _ & Hmax & Hmin & _).
  destruct (env_tables_limits _ _ _ _ _ _ _ Hinit Hok Hin Hlim) as (Hq & Hv & Ht).
  exists qlo, qhi, v, tau. unfold bound. rewrite Hmax, Hmin. simpl.
  split; [exact Hlim|]. repeat (split; [reflexivity|]).
  intros key Hkey. each_key Hkey; eexists _, _;
    (split; [reflexivity|split; [reflexivity|]]); lra.
Qed.

(** C10: the observation space built by the constructor is the action space:
    the same joints, and for each of the six joints the same six fields with
    the same ranges. *)
Theorem observation_space_eq_action_space (m : Model) (env : UpkieServos) :
  init m = inr env ->
  observation_space env = action_space env /\
  forall joint, joint ∈ JOINT_NAMES ->
    exists d, action_space env !! joint = Some d /\
              observation_space env !! joint = Some d /\
              dom d = list_to_set ACTION_KEYS.
Proof.
  intros Hinit. split.
  - apply map_eq. intros name. destruct (init_inv _ _ Hinit) as [_ Hrows].
    destruct (Hrows name) as [Hin Hout].
    destruct (decide (name ∈ JOINT_NAMES)) as [Hmem|Hmem].
    + destruct (Hin Hmem) as ([[[qlo qhi] v] tau] & _ & Heq).
      unfold env_row, row_of_limits in Heq. by injection Heq as _ _ _ -> ->.
    + specialize (Hout Hmem). unfold env_row in Hout.
      by injection Hout as _ _ _ -> ->.
  - intros joint Hin.
    destruct (env_tables _ _ _ Hinit Hin)
      as (qlo & qhi & v & tau & _ & _ & _ & _ & Ha & Ho).
    eexists. split; [done|]. split; [done|].
    unfold joint_boxes, ACTION_KEYS. rewrite !dom_insert_L. set_solver.
Qed.

(** ** Clamping facts *)

Lemma clamp_range v lo hi : (lo <= hi)%Q -> (lo <= clamp v lo hi <= hi)%Q.
Proof.
  intros Hle. unfold clamp.
  destruct (Qltb hi v) eqn:H1; [lra|].
  destruct (Qltb v lo) eqn:H2; [lra|].
  apply Qltb_ge in H1, H2. lra.
Qed.

Lemma clamp_inside v lo hi label :
  (lo <= v)%Q -> (v <= hi)%Q ->
  clamp v lo hi = v /\ clamp_log v lo hi label = [].
Proof.
  intros H1%Qltb_ge H2%Qltb_ge. unfold clamp, clamp_log. by rewrite H1, H2.
Qed.

Lemma clamp_above v lo hi label :
  (hi < v)%Q ->
  clamp v lo hi = hi /\
  clamp_log v lo hi label =
    [{| w_label := label; w_value := v; w_clamped := hi |}].
Proof.
  intros H%Qltb_lt. unfold clamp, clamp_log. by rewrite H.
Qed.

Lemma clamp_below v lo hi label :
  (lo <= hi)%Q -> (v < lo)%Q ->
  clamp v lo hi = lo /\
  clamp_log v lo hi label =
    [{| w_label := label; w_value := v; w_clamped := lo |}].
Proof.
  intros Hle Hlt. unfold clamp, clamp_log.
  assert (Qltb hi v = false) as -> by (apply Qltb_ge; lra).
  apply Qltb_lt in Hlt. by rewrite Hlt.
Qed.

(** ** Reading the fields of the tables *)

Lemma env_fields m env joint :
  init m = inr env -> joint ∈ JOINT_NAMES ->
  exists qlo qhi v tau,
    joint_limits m joint = Some (qlo, qhi, v, tau) /\
    (bound (default_action env) joint "position" = None /\
     bound (default_action env) joint "velocity" = None /\
     bound (default_action env) joint "feedforward_torque" = Some 0%Q /\
     bound (default_action env) joint "kp_scale" = Some 1%Q /\
     bound (default_action env) joint "kd_scale" = Some 1%Q /\
     bound (default_action env) joint "maximum_torque" = Some tau) /\
    (bound (min_action env) joint "position" = Some qlo /\
     bound (min_action env) joint "velocity" = Some (- v)%Q /\
     bound (min_action env) joint "feedforward_torque" = Some (- tau)%Q /\
     bound (min_action env) joint "kp_scale" = Some 0%Q /\
     bound (min_action env) joint "kd_scale" = Some 0%Q /\
     bound (min_action env) joint "maximum_torque" = Some 0%Q) /\
    (bound (max_action env) joint "position" = Some qhi /\
     bound (max_action env) joint "velocity" = Some v /\
     bound (max_action env) joint "feedforward_torque" = Some tau /\
     bound (max_action env) joint "kp_scale" = Some 1%Q /\
     bound (max_action env) joint "kd_scale" = Some 1%Q /\
     bound (max_action env) joint "maximum_torque" = Some tau).
Proof.
  intros Hinit Hin.
  destruct (env_tables _ _ _ Hinit Hin)
    as (qlo & qhi & v & tau & Hlim & Hdef & Hmax & Hmin & _).
  exists qlo, qhi, v, tau. unfold bound. rewrite Hdef, Hmax, Hmin. simpl.
  split; [exact Hlim|]. repeat split; reflexivity.
Qed.

Lemma env_bounds m env joint key :
  init m = inr env -> joint ∈ JOINT_NAMES -> key ∈ ACTION_KEYS ->
  exists lo hi,
    bound (min_action env) joint key = Some lo /\
    bound (max_action env) joint key = Some hi /\
    (limits_ok m = true -> (lo <= hi)%Q).
Proof.
  intros Hinit Hin Hkey.
  destruct (env_fields _ _ _ Hinit Hin)
    as (qlo & qhi & v & tau & Hlim & _ & Hmin & Hmax).
  destruct Hmin as (? & ? & ? & ? & ? & ?).
  destruct Hmax as (? & ? & ? & ? & ? & ?).
  each_key Hkey; eexists _, _; (split; [eassumption|split; [eassumption|]]);
    intros Hok;
    destruct (env_tables_limits _ _ _ _ _ _ _ Hinit Hok Hin Hlim) as (? & ? & ?);
    lra.
Qed.

Lemma env_default_key m env joint key :
  init m = inr env -> joint ∈ JOINT_NAMES -> key ∈ ACTION_KEYS ->
  key <> "position" -> key <> "velocity" ->
  is_Some (bound (default_action env) joint key).
Proof.
  intros Hinit Hin Hkey Hp Hv.
  destruct (env_fields _ _ _ Hinit Hin)
    as (qlo & qhi & v & tau & _ & Hdef & _).
  destruct Hdef as (? & ? & ? & ? & ? & ?).
  each_key Hkey; try done; eauto.
Qed.

Lemma value_at_entry st joint entry key :
  env_action st !! joint = Some entry ->
  value_at st joint key =
  match entry !! key with
  | Some v => Some v
  | None => bound (default_action (self st)) joint key
  end.
Proof. intros H. unfold value_at. by rewrite H. Qed.

Lemma value_at_supplied st joint key v :
  bound (env_action st) joint key = Some v -> value_at st joint key = Some v.
Proof.
  unfold bound, value_at.
  destruct (env_action st !! joint) as [entry|]; simpl; [|done].
  by intros ->.
Qed.

Lemma supplied_joint_ok m st joint :
  init m = inr (self st) -> joint ∈ JOINT_NAMES ->
  supplies_required (env_action st) joint -> joint_ok st joint.
Proof.
  intros Hinit Hin [[p Hp] [v Hv]] key Hkey.
  destruct (env_bounds _ _ _ _ Hinit Hin Hkey) as (lo & hi & Hlo & Hhi & _).
  unfold out_at. rewrite Hlo, Hhi.
  assert (is_Some (value_at st joint key)) as [x ->]; [|by eexists].
  destruct (decide (key = "position")) as [->|Hnp].
  { rewrite (value_at_supplied _ _ _ _ Hp). eauto. }
  destruct (decide (key = "velocity")) as [->|Hnv].
  { rewrite (value_at_supplied _ _ _ _ Hv). eauto. }
  unfold bound in Hp. destruct (env_action st !! joint) as [entry|] eqn:He;
    simpl in Hp; [|done].
  rewrite (value_at_entry _ _ _ _ He). destruct (entry !! key); [eauto|].
  by eapply env_default_key.
Qed.

Lemma entries_complete (servo : gmap string (gmap string Q)) st :
  (forall joint, joint ∈ JOINT_NAMES ->
     exists sa, servo !! joint = Some sa /\ servo_entry st joint sa) ->
  (forall joint, joint ∈ JOINT_NAMES -> joint_ok st joint) ->
  (forall joint, joint ∉ JOINT_NAMES -> servo !! joint = None) ->
  complete_batch {["servo" := servo]}.
Proof.
  intros Hin Hok Hout. exists servo. split; [done|]. split.
  - apply set_eq. intros joint. rewrite elem_of_dom, elem_of_list_to_set.
    split.
    + intros Hsome. destruct (decide (joint ∈ JOINT_NAMES)); [done|].
      rewrite Hout in Hsome by done. by destruct Hsome.
    + intros Hj. destruct (Hin joint Hj) as (sa & -> & _). eauto.
  - intros joint sa Hsa.
    assert (joint ∈ JOINT_NAMES) as Hj.
    { destruct (decide (joint ∈ JOINT_NAMES)); [done|].
      rewrite Hout in Hsa by done. done. }
    destruct (Hin joint Hj) as (sa' & Hsa' & Hkeys & Hnone).
    assert (sa' = sa) as -> by congruence.
    apply set_eq. intros key. rewrite elem_of_dom, elem_of_list_to_set.
    split.
    + intros Hsome. destruct (decide (key ∈ ACTION_KEYS)); [done|].
      rewrite Hnone in Hsome by done. by destruct Hsome.
    + intros Hkey. rewrite (Hkeys key Hkey). by apply Hok.
Qed.

(** Success of the whole call when every joint supplies its required
    fields. *)
Lemma spine_ok m st :
  init m = inr (self st) ->
  (forall joint, joint ∈ JOINT_NAMES -> supplies_required (env_action st) joint) ->
  exists servo,
    run get_spine_action st =
      (inr {["servo" := servo]},
       add_log st (flat_map (joint_warnings st) JOINT_NAMES)) /\
    complete_batch {["servo" := servo]} /\
    forall joint key, joint ∈ JOINT_NAMES -> key ∈ ACTION_KEYS ->
      bound servo joint key = out_at st joint key /\
      is_Some (out_at st joint key).
Proof.
  intros Hinit Hsup.
  assert (forall joint, joint ∈ JOINT_NAMES -> joint_ok st joint) as Hok.
  { intros joint Hj. eapply supplied_joint_ok; eauto. }
  destruct (spine_loop_ok JOINT_NAMES ∅ st Hok) as (servo & Hrun & Hin & Hout).
  exists servo. split; [exact Hrun|]. split.
  - apply (entries_complete servo st); [done..|].
    intros joint Hj. by rewrite (Hout joint Hj).
  - intros joint key Hj Hkey. destruct (Hin joint Hj) as (sa & Hsa & Hkeys & _).
    unfold bound at 1. rewrite Hsa. simpl. split; [by apply Hkeys|].
    by apply Hok.
Qed.

Lemma flat_map_nil {A B} (f : A -> list B) (l : list A) :
  (forall x, x ∈ l -> f x = []) -> flat_map f l = [].
Proof.
  induction l as [|x l IH]; simpl; intros Hall; [done|].
  rewrite (Hall x) by (by left). apply IH. intros y Hy. apply Hall. by right.
Qed.

Lemma elem_of_flat_map {A B} (f : A -> list B) (l : list A) x y :
  x ∈ l -> y ∈ f x -> y ∈ flat_map f l.
Proof.
  rewrite !list_elem_of_In. intros Hx Hy. apply in_flat_map. eauto.
Qed.

(** C1: when the action supplies position and velocity for all six joints,
    the call returns a batch of the form [{"servo": ...}] holding all six
    fields for all six joints, every value within the bounds of its joint
    and field. *)
Theorem get_spine_action_complete_in_bounds (m : Model) (st : Store) :
  init m = inr (self st) ->
  limits_ok m = true ->
  (forall joint, joint ∈ JOINT_NAMES ->
     supplies_required (env_action st) joint) ->
  exists batch servo,
    fst (run get_spine_action st) = inr batch /\
    batch = {["servo" := servo]} /\
    complete_batch batch /\
    forall joint key, joint ∈ JOINT_NAMES -> key ∈ ACTION_KEYS ->
      exists v lo hi,
        bound servo joint key = Some v /\
        bound (min_action (self st)) joint key = Some lo /\
        bound (max_action (self st)) joint key = Some hi /\
        (lo <= v <= hi)%Q.
Proof.
  intros Hinit Hok Hsup.
  destruct (spine_ok m st Hinit Hsup) as (servo & Hrun & Hcomplete & Hval).
  exists {["servo" := servo]}, servo. rewrite Hrun. simpl.
  split; [done|]. split; [done|]. split; [done|].
  intros joint key Hj Hkey.
  destruct (Hval joint key Hj Hkey) as [Hb [x Hx]].
  destruct (env_bounds _ _ _ _ Hinit Hj Hkey) as (lo & hi & Hlo & Hhi & Hle).
  rewrite Hb. unfold out_at in *. rewrite Hlo, Hhi in *.
  destruct (value_at st joint key) as [v|]; simpl in *; [|done].
  exists (clamp v lo hi), lo, hi. repeat (split; [done|]).
  apply clamp_range. by apply Hle.
Qed.

(** C4, as the code has it: when the action supplies position and velocity
    for all six joints, a resolved value above the maximum of its joint and
    field is replaced by that maximum, one below the minimum by that
    minimum; in both cases a warning labelled with the joint and the field
    is logged, and the call returns a complete batch. *)
Theorem get_spine_action_clamps (m : Model) (st : Store)
    (joint key : string) (v : Q) :
  init m = inr (self st) ->
  limits_ok m = true ->
  (forall j, j ∈ JOINT_NAMES -> supplies_required (env_action st) j) ->
  joint ∈ JOINT_NAMES -> key ∈ ACTION_KEYS ->
  value_at st joint key = Some v ->
  exists servo w,
    run get_spine_action st = (inr {["servo" := servo]}, add_log st w) /\
    complete_batch {["servo" := servo]} /\
    (forall hi, bound (max_action (self st)) joint key = Some hi ->
       (hi < v)%Q ->
       bound servo joint key = Some hi /\
       {| w_label := clamp_label joint key; w_value := v; w_clamped := hi |} ∈ w) /\
    (forall lo, bound (min_action (self st)) joint key = Some lo ->
       (v < lo)%Q ->
       bound servo joint key = Some lo /\
       {| w_label := clamp_label joint key; w_value := v; w_clamped := lo |} ∈ w).
Proof.
  intros Hinit Hok Hsup Hj Hkey Hv.
  destruct (spine_ok m st Hinit Hsup) as (servo & Hrun & Hcomplete & Hval).
  exists servo, (flat_map (joint_warnings st) JOINT_NAMES).
  split; [done|]. split; [done|].
  destruct (Hval joint key Hj Hkey) as [Hb _].
  destruct (env_bounds _ _ _ _ Hinit Hj Hkey) as (lo & hi & Hlo & Hhi & Hle).
  specialize (Hle Hok).
  assert (warn_at st joint key = clamp_log v lo hi (clamp_label joint key)) as Hw.
  { unfold warn_at. by rewrite Hv, Hlo, Hhi. }
  assert (forall x, x ∈ warn_at st joint key ->
            x ∈ flat_map (joint_warnings st) JOINT_NAMES) as Hlog.
  { intros x Hx. apply (elem_of_flat_map _ _ joint); [done|].
    by apply (elem_of_flat_map _ _ key). }
  rewrite Hb. unfold out_at. rewrite Hv, Hlo, Hhi. simpl. split.
  - intros hi' [= <-] Hlt.
    destruct (clamp_above v lo hi (clamp_label joint key) Hlt) as [-> Hc].
    split; [done|]. apply Hlog. rewrite Hw, Hc. by left.
  - intros lo' [= <-] Hlt.
    destruct (clamp_below v lo hi (clamp_label joint key) Hle Hlt) as [-> Hc].
    split; [done|]. apply Hlog. rewrite Hw, Hc. by left.
Qed.

(** C5, as the code has it: when the action supplies position and velocity
    for all six joints, then for a joint whose entry leaves out
    [feedforward_torque], [kp_scale], [kd_scale] or [maximum_torque] the
    batch holds the default of that field: 0, 1, 1 and the torque limit of
    the joint. *)
Theorem get_spine_action_defaults (m : Model) (st : Store) (joint : string) :
  init m = inr (self st) ->
  limits_ok m = true ->
  (forall j, j ∈ JOINT_NAMES -> supplies_required (env_action st) j) ->
  joint ∈ JOINT_NAMES ->
  exists servo qlo qhi v tau,
    fst (run get_spine_action st) = inr {["servo" := servo]} /\
    joint_limits m joint = Some (qlo, qhi, v, tau) /\
    (bound (env_action st) joint "feedforward_torque" = None ->
     bound servo joint "feedforward_torque" = Some 0%Q) /\
    (bound (env_action st) joint "kp_scale" = None ->
     bound servo joint "kp_scale" = Some 1%Q) /\
    (bound (env_action st) joint "kd_scale" = None ->
     bound servo joint "kd_scale" = Some 1%Q) /\
    (bound (env_action st) joint "maximum_torque" = None ->
     bound servo joint "maximum_torque" = Some tau).
Proof.
  intros Hinit Hok Hsup Hj.
  destruct (spine_ok m st Hinit Hsup) as (servo & Hrun & _ & Hval).
  destruct (env_fields _ _ _ Hinit Hj)
    as (qlo & qhi & v & tau & Hlim & Hdef & Hmin & Hmax).
  destruct (env_tables_limits _ _ _ _ _ _ _ Hinit Hok Hj Hlim) as (_ & _ & Ht).
  destruct Hdef as (_ & _ & Hd1 & Hd2 & Hd3 & Hd4).
  destruct Hmin as (_ & _ & Hn1 & Hn2 & Hn3 & Hn4).
  destruct Hmax as (_ & _ & Hx1 & Hx2 & Hx3 & Hx4).
  exists servo, qlo, qhi, v, tau. rewrite Hrun. simpl.
  split; [done|]. split; [done|].
  destruct (Hsup joint Hj) as [[p Hp] _]. unfold bound in Hp.
  destruct (env_action st !! joint) as [entry|] eqn:He; simpl in Hp; [|done].
  assert (forall key d lo hi,
    key ∈ ACTION_KEYS ->
    bound (default_action (self st)) joint key = Some d ->
    bound (min_action (self st)) joint key = Some lo ->
    bound (max_action (self st)) joint key = Some hi ->
    (lo <= d)%Q -> (d <= hi)%Q ->
    bound (env_action st) joint key = None ->
    bound servo joint key = Some d) as Hfield.
  { intros key d lo hi Hkey Hd Hlo Hhi H1 H2 Hnone.
    destruct (Hval joint key Hj Hkey) as [-> _].
    unfold out_at. rewrite (value_at_entry _ _ _ _ He).
    unfold bound in Hnone. rewrite He in Hnone. simpl in Hnone.
    rewrite Hnone, Hd, Hlo, Hhi. simpl.
    by destruct (clamp_inside d lo hi EmptyString H1 H2) as [-> _]. }
  repeat split; intros Hnone.
  - apply (Hfield "feedforward_torque" _ _ _ ltac:(in_list) Hd1 Hn1 Hx1);
      [lra|lra|done].
  - apply (Hfield "kp_scale" _ _ _ ltac:(in_list) Hd2 Hn2 Hx2);
      [lra|lra|done].
  - apply (Hfield "kd_scale" _ _ _ ltac:(in_list) Hd3 Hn3 Hx3);
      [lra|lra|done].
  - apply (Hfield "maximum_torque" _ _ _ ltac:(in_list) Hd4 Hn4 Hx4);
      [lra|lra|done].
Qed.

(** C6: when every joint supplies all six fields and every supplied value
    lies within its bounds, the batch holds exactly the supplied values and
    nothing is logged. *)
Theorem get_spine_action_in_range (st : Store) :
  (forall joint key, joint ∈ JOINT_NAMES -> key ∈ ACTION_KEYS ->
     exists v lo hi,
       bound (env_action st) joint key = Some v /\
       bound (min_action (self st)) joint key = Some lo /\
       bound (max_action (self st)) joint key = Some hi /\
       (lo <= v <= hi)%Q) ->
  exists servo,
    run get_spine_action st = (inr {["servo" := servo]}, st) /\
    complete_batch {["servo" := servo]} /\
    forall joint key, joint ∈ JOINT_NAMES -> key ∈ ACTION_KEYS ->
      bound servo joint key = bound (env_action st) joint key.
Proof.
  intros Hall.
  assert (forall joint key, joint ∈ JOINT_NAMES -> key ∈ ACTION_KEYS ->
            out_at st joint key = bound (env_action st) joint key /\
            is_Some (out_at st joint key) /\
            warn_at st joint key = []) as Hfield.
  { intros joint key Hj Hkey.
    destruct (Hall joint key Hj Hkey) as (v & lo & hi & Hv & Hlo & Hhi & H1 & H2).
    unfold out_at, warn_at.
    rewrite (value_at_supplied _ _ _ _ Hv), Hlo, Hhi, Hv. simpl.
    destruct (clamp_inside v lo hi (clamp_label joint key) H1 H2) as [-> ->].
    eauto. }
  assert (forall joint, joint ∈ JOINT_NAMES -> joint_ok st joint) as Hok.
  { intros joint Hj key Hkey. by apply Hfield. }
  destruct (spine_loop_ok JOINT_NAMES ∅ st Hok) as (servo & Hrun & Hin & Hout).
  exists servo. split; [|split].
  - change get_spine_action with (for_ JOINT_NAMES joint_step {["servo" := ∅]}).
    rewrite Hrun, flat_map_nil, add_log_nil; [done|].
    intros joint Hj. apply flat_map_nil. intros key Hkey. by apply Hfield.
  - apply (entries_complete servo st); [done..|].
    intros joint Hj. by rewrite (Hout joint Hj).
  - intros joint key Hj Hkey. destruct (Hin joint Hj) as (sa & Hsa & Hkeys & _).
    unfold bound at 1. rewrite Hsa. simpl. rewrite (Hkeys key Hkey).
    by apply Hfield.
Qed.

(** ** The call only reads its argument and the tables *)

Lemma log_only_lift {A} (r : Exn + A) : log_only (lift r).
Proof. intros st. exists r, []. intros l. simpl. by rewrite app_nil_r. Qed.

Lemma log_only_ret {A} (x : A) : log_only (mret x).
Proof. apply (log_only_lift (inr x)). Qed.

Lemma log_only_read {A} (f : Store -> A) :
  (forall st l, f (set_log st l) = f st) -> log_only (read f).
Proof.
  intros Hf st. exists (inr (f st)), []. intros l. simpl.
  by rewrite Hf, app_nil_r.
Qed.

Lemma log_only_warn w : log_only (warn w).
Proof. intros st. by exists (inr tt), [w]. Qed.

Lemma log_only_bind {A B} (c : M A) (k : A -> M B) :
  log_only c -> (forall x, log_only (k x)) -> log_only (c ≫= k).
Proof.
  intros Hc Hk st. destruct (Hc st) as (r & w & Hrun).
  destruct r as [e|x].
  - exists (inl e), w. intros l. by rewrite run_bind, Hrun.
  - destruct (Hk x st) as (r' & w' & Hrun').
    exists r', (w ++ w'). intros l.
    by rewrite run_bind, Hrun, Hrun', app_assoc.
Qed.

Lemma log_only_try {A} (body : M A) (handler : string -> M A) :
  log_only body -> (forall k, log_only (handler k)) ->
  log_only (try_except_KeyError body handler).
Proof.
  intros Hb Hh st. destruct (Hb st) as (r & w & Hrun).
  destruct r as [e|x]; [destruct e as [| |k| |]|];
    try (eexists _, w; intros l; unfold try_except_KeyError; simpl;
         by rewrite Hrun).
  destruct (Hh k st) as (r' & w' & Hrun').
  exists r', (w ++ w'). intros l. unfold try_except_KeyError. simpl.
  by rewrite Hrun, Hrun', app_assoc.
Qed.

Lemma log_only_for {A S} (xs : list A) (body : A -> S -> M S) :
  (forall x s, log_only (body x s)) -> forall s, log_only (for_ xs body s).
Proof.
  intros Hbody. induction xs as [|x xs IH]; intros s; cbn [for_].
  - apply log_only_ret.
  - apply log_only_bind; [apply Hbody | apply IH].
Qed.

Lemma log_only_clamp_and_warn v lo hi label :
  log_only (clamp_and_warn v lo hi label).
Proof.
  unfold clamp_and_warn.
  destruct (Qltb hi v);
    [apply log_only_bind; [apply log_only_warn | intros; apply log_only_ret]|].
  destruct (Qltb v lo);
    [apply log_only_bind; [apply log_only_warn | intros; apply log_only_ret]|].
  apply log_only_ret.
Qed.

Ltac log_only_step :=
  first
    [ apply log_only_bind; [|intros ?]
    | apply log_only_lift
    | apply log_only_ret
    | apply log_only_read; reflexivity
    | apply log_only_clamp_and_warn ].

Lemma log_only_resolve joint key : log_only (resolve joint key).
Proof.
  unfold resolve. apply log_only_try; [|intros; apply log_only_lift].
  apply log_only_bind; [apply log_only_read; reflexivity | intros a].
  apply log_only_bind; [apply log_only_lift | intros entry].
  case_bool_decide; repeat log_only_step.
Qed.

Lemma log_only_servo_step joint key s : log_only (servo_step joint key s).
Proof.
  unfold servo_step. apply log_only_bind; [apply log_only_resolve|intros ?].
  repeat log_only_step.
Qed.

Lemma log_only_joint_step joint sp : log_only (joint_step joint sp).
Proof.
  unfold joint_step. apply log_only_bind.
  - apply log_only_for. intros. apply log_only_servo_step.
  - intros. repeat log_only_step.
Qed.

Lemma log_only_get_spine_action : log_only get_spine_action.
Proof. apply log_only_for. intros. apply log_only_joint_step. Qed.

Lemma set_log_self st : set_log st (log st) = st.
Proof. by destruct st. Qed.

(** C9: a call, whether it returns or raises, leaves the action it was given
    and the default, minimum and maximum tables as they were; calling again
    gives the same result. *)
Theorem get_spine_action_frame (st : Store) :
  env_action (snd (run get_spine_action st)) = env_action st /\
  self (snd (run get_spine_action st)) = self st /\
  fst (run get_spine_action (snd (run get_spine_action st)))
    = fst (run get_spine_action st).
Proof.
  destruct (log_only_get_spine_action st) as (r & w & Hrun).
  pose proof (Hrun (log st)) as Hfirst. rewrite set_log_self in Hfirst.
  rewrite Hfirst. cbn [fst snd]. split; [done|]. split; [done|].
  by rewrite (Hrun (log st ++ w)).
Qed.

(** ** Missing required fields *)

Lemma first_failing {A} (P : A -> Prop) `{!forall x, Decision (P x)}
    (l : list A) (x : A) :
  x ∈ l -> ~ P x ->
  exists l1 y l2, l = l1 ++ y :: l2 /\ (forall z, z ∈ l1 -> P z) /\ ~ P y.
Proof.
  induction l as [|a l IH]; [by intros ?%elem_of_nil|].
  intros Hin Hx. destruct (decide (P a)) as [Ha|Ha].
  - apply elem_of_cons in Hin as [->|Hin]; [done|].
    destruct (IH Hin Hx) as (l1 & y & l2 & -> & Hl1 & Hy).
    exists (a :: l1), y, l2. split; [done|]. split; [|done].
    intros z [->|Hz]%elem_of_cons; [done|by apply Hl1].
  - exists [], a, l. split; [done|]. split; [|done].
    by intros z ?%elem_of_nil.
Qed.

Lemma keys_before_split key :
  key = "position" \/ key = "velocity" ->
  exists ks2, ACTION_KEYS = keys_before key ++ key :: ks2.
Proof. intros [->| ->]; by eexists. Qed.

(** The first required field a joint's entry lacks is not resolved, and the
    fields before it are. *)
Lemma unsupplied_joint m st joint :
  init m = inr (self st) -> joint ∈ JOINT_NAMES ->
  ~ supplies_required (env_action st) joint ->
  exists key,
    key = (if decide (is_Some (bound (env_action st) joint "position"))
           then "velocity" else "position") /\
    (key = "position" \/ key = "velocity") /\
    bound (env_action st) joint key = None /\
    value_at st joint key = None /\
    (forall k, k ∈ keys_before key -> is_Some (out_at st joint k)).
Proof.
  intros Hinit Hj Hnot.
  destruct (env_fields _ _ _ Hinit Hj)
    as (qlo & qhi & v & tau & _ & (Hdp & Hdv & _) & _).
  assert (forall key, bound (default_action (self st)) joint key = None ->
            bound (env_action st) joint key = None ->
            value_at st joint key = None) as Hnone.
  { intros key Hd Ha. unfold value_at, bound in *.
    destruct (env_action st !! joint) as [entry|]; simpl in *; [|done].
    by rewrite Ha. }
  case_decide as Hp.
  - exists "velocity". split; [done|]. split; [by right|].
    assert (bound (env_action st) joint "velocity" = None) as Hv.
    { destruct (bound (env_action st) joint "velocity") eqn:Hv; [|done].
      destruct Hnot. split; [done|by eexists]. }
    split; [done|]. split; [by apply Hnone|].
    intros k Hk. unfold keys_before in Hk. simpl in Hk.
    apply list_elem_of_singleton in Hk as ->.
    destruct Hp as [p Hp]. unfold out_at.
    rewrite (value_at_supplied _ _ _ _ Hp). simpl.
    destruct (env_bounds m _ joint "position" Hinit Hj ltac:(in_list))
      as (lo & hi & -> & -> & _).
    by eexists.
  - exists "position". split; [done|]. split; [by left|].
    assert (bound (env_action st) joint "position" = None) as Hp'.
    { destruct (bound (env_action st) joint "position"); [|done].
      destruct Hp. by eexists. }
    split; [done|]. split; [by apply Hnone|].
    by intros k ?%elem_of_nil.
Qed.

(** The call raises at the first joint, in the order of [JOINT_NAMES], that
    lacks a required field, after logging the warnings of everything
    processed before. *)
Lemma raises_first_missing m st js1 joint js2 :
  init m = inr (self st) ->
  JOINT_NAMES = js1 ++ joint :: js2 ->
  (forall j, j ∈ js1 -> supplies_required (env_action st) j) ->
  ~ supplies_required (env_action st) joint ->
  exists key,
    key = (if decide (is_Some (bound (env_action st) joint "position"))
           then "velocity" else "position") /\
    bound (env_action st) joint key = None /\
    run get_spine_action st =
      (inl (ActionError (missing_key_message key joint)),
       add_log st (flat_map (joint_warnings st) js1
                   ++ flat_map (warn_at st joint) (keys_before key))).
Proof.
  intros Hinit Hsplit Hbefore Hnot.
  assert (joint ∈ JOINT_NAMES) as Hj.
  { rewrite Hsplit. apply elem_of_app. right. by left. }
  destruct (unsupplied_joint m st joint Hinit Hj Hnot)
    as (key & Hkey & Hpv & Hna & Hnv & Hks).
  exists key. split; [done|]. split; [done|].
  destruct (keys_before_split key Hpv) as [ks2 Hkeys].
  change get_spine_action with (for_ JOINT_NAMES joint_step {["servo" := ∅]}).
  rewrite Hsplit.
  apply (spine_loop_err js1 joint js2 (keys_before key) key ks2); try done.
  intros j Hin. apply (supplied_joint_ok m); [done| |by apply Hbefore].
  rewrite Hsplit. apply elem_of_app. by left.
Qed.

(** Whenever some joint lacks a required field, the call raises an
    [ActionError] naming a required field that is missing. *)
Lemma raises_some_missing m st joint :
  init m = inr (self st) -> joint ∈ JOINT_NAMES ->
  ~ supplies_required (env_action st) joint ->
  exists j key w,
    j ∈ JOINT_NAMES /\ (key = "position" \/ key = "velocity") /\
    bound (env_action st) j key = None /\
    run get_spine_action st =
      (inl (ActionError (missing_key_message key j)), add_log st w).
Proof.
  intros Hinit Hj Hnot.
  destruct (first_failing (supplies_required (env_action st)) _ _ Hj Hnot)
    as (js1 & j & js2 & Hsplit & Hbefore & Hfail).
  destruct (raises_first_missing m st js1 j js2 Hinit Hsplit Hbefore Hfail)
    as (key & Hkey & Hnone & Hrun).
  eexists j, key, _. split; [|split; [|split; [done|exact Hrun]]].
  - rewrite Hsplit. apply elem_of_app. right. by left.
  - rewrite Hkey. case_decide; [by right|by left].
Qed.

Lemma first_failing_unique {A} (P : A -> Prop) (l1 : list A) :
  forall l1' x x' l2 l2',
  l1 ++ x :: l2 = l1' ++ x' :: l2' ->
  (forall z, z ∈ l1 -> P z) -> ~ P x ->
  (forall z, z ∈ l1' -> P z) -> ~ P x' ->
  l1 = l1' /\ x = x'.
Proof.
  induction l1 as [|a l1 IH]; intros [|a' l1'] x x' l2 l2' Heq H1 Hx H1' Hx';
    simpl in Heq.
  - by injection Heq as ->.
  - injection Heq as -> _. destruct Hx. apply H1'. by left.
  - injection Heq as -> _. destruct Hx'. apply H1. by left.
  - injection Heq as -> Heq.
    destruct (IH l1' x x' l2 l2' Heq) as [-> ->]; try done.
    + intros z Hz. apply H1. by right.
    + intros z Hz. apply H1'. by right.
Qed.

(** Whenever some joint lacks a required field, the call raises at the
    earliest such joint in the order of [JOINT_NAMES], naming the first
    required field that joint lacks, after logging the warnings of
    everything processed before. *)
Lemma raises_at_first m st joint :
  init m = inr (self st) -> joint ∈ JOINT_NAMES ->
  ~ supplies_required (env_action st) joint ->
  exists js1 j js2 key,
    JOINT_NAMES = js1 ++ j :: js2 /\
    (forall j', j' ∈ js1 -> supplies_required (env_action st) j') /\
    ~ supplies_required (env_action st) j /\
    key = (if decide (is_Some (bound (env_action st) j "position"))
           then "velocity" else "position") /\
    bound (env_action st) j key = None /\
    run get_spine_action st =
      (inl (ActionError (missing_key_message key j)),
       add_log st (flat_map (joint_warnings st) js1
                   ++ flat_map (warn_at st j) (keys_before key))) /\
    (forall l1 l2,
       JOINT_NAMES = l1 ++ joint :: l2 ->
       (forall j', j' ∈ l1 -> supplies_required (env_action st) j') ->
       js1 = l1 /\ j = joint).
Proof.
  intros Hinit Hj Hnot.
  destruct (first_failing (supplies_required (env_action st)) _ _ Hj Hnot)
    as (js1 & j & js2 & Hsplit & Hbefore & Hfail).
  destruct (raises_first_missing m st js1 j js2 Hinit Hsplit Hbefore Hfail)
    as (key & Hkey & Hnone & Hrun).
  exists js1, j, js2, key. repeat (split; [done|]).
  intros l1 l2 Hsplit' Hbefore'. rewrite Hsplit in Hsplit'.
  by eapply (first_failing_unique (supplies_required (env_action st))).
Qed.

(** C2, as the code has it: when the entry of a joint leaves out its
    position or its velocity, the call raises an [ActionError] and returns
    no batch. The message names the first missing required field in the
    order of the loops: the earliest joint of [JOINT_NAMES] that lacks a
    required field, and its position if that is missing, else its
    velocity. This is the given joint when every joint before it supplies
    both required fields. The action and the tables are untouched; exactly
    the warnings of the fields processed before the failure have been
    logged. *)
Theorem get_spine_action_missing_field (m : Model) (st : Store)
    (joint : string) (entry : gmap string Q) :
  init m = inr (self st) ->
  joint ∈ JOINT_NAMES ->
  env_action st !! joint = Some entry ->
  entry !! "position" = None \/ entry !! "velocity" = None ->
  exists js1 j js2 key,
    JOINT_NAMES = js1 ++ j :: js2 /\
    (forall j', j' ∈ js1 -> supplies_required (env_action st) j') /\
    ~ supplies_required (env_action st) j /\
    key = (if decide (is_Some (bound (env_action st) j "position"))
           then "velocity" else "position") /\
    bound (env_action st) j key = None /\
    run get_spine_action st =
      (inl (ActionError (missing_key_message key j)),
       add_log st (flat_map (joint_warnings st) js1
                   ++ flat_map (warn_at st j) (keys_before key))) /\
    (forall l1 l2,
       JOINT_NAMES = l1 ++ joint :: l2 ->
       (forall j', j' ∈ l1 -> supplies_required (env_action st) j') ->
       js1 = l1 /\ j = joint /\
       key = (if decide (is_Some (entry !! "position"))
              then "velocity" else "position")).
Proof.
  intros Hinit Hj Hentry Hmiss.
  assert (forall key, bound (env_action st) joint key = entry !! key) as Hb.
  { intros key. unfold bound. by rewrite Hentry. }
  assert (~ supplies_required (env_action st) joint) as Hnot.
  { intros [[p Hp] [v Hv]]. rewrite Hb in Hp, Hv.
    destruct Hmiss; congruence. }
  destruct (raises_at_first m st joint Hinit Hj Hnot)
    as (js1 & j & js2 & key & Hsplit & Hbefore & Hfail & Hkey & Hnone
        & Hrun & Hown).
  exists js1, j, js2, key. repeat (split; [done|]).
  intros l1 l2 Hsplit' Hbefore'.
  destruct (Hown l1 l2 Hsplit' Hbefore') as [-> ->].
  repeat (split; [done|]). by rewrite Hb in Hkey.
Qed.

(** C8, as the code has it: when the action has no entry for a joint, the
    call raises an [ActionError], whatever defaults that joint has, and
    returns no batch. The message names the first missing required field
    of the earliest joint of [JOINT_NAMES] lacking one; this is
    ["position"] of the given joint when every joint before it supplies
    both required fields. *)
Theorem get_spine_action_missing_joint (m : Model) (st : Store)
    (joint : string) :
  init m = inr (self st) ->
  joint ∈ JOINT_NAMES ->
  env_action st !! joint = None ->
  exists js1 j js2 key,
    JOINT_NAMES = js1 ++ j :: js2 /\
    (forall j', j' ∈ js1 -> supplies_required (env_action st) j') /\
    ~ supplies_required (env_action st) j /\
    key = (if decide (is_Some (bound (env_action st) j "position"))
           then "velocity" else "position") /\
    bound (env_action st) j key = None /\
    run get_spine_action st =
      (inl (ActionError (missing_key_message key j)),
       add_log st (flat_map (joint_warnings st) js1
                   ++ flat_map (warn_at st j) (keys_before key))) /\
    (forall l1 l2,
       JOINT_NAMES = l1 ++ joint :: l2 ->
       (forall j', j' ∈ l1 -> supplies_required (env_action st) j') ->
       js1 = l1 /\ j = joint /\ key = "position").
Proof.
  intros Hinit Hj Hentry.
  assert (forall key, bound (env_action st) joint key = None) as Hb.
  { intros key. unfold bound. by rewrite Hentry. }
  assert (~ supplies_required (env_action st) joint) as Hnot.
  { intros [[p Hp] _]. by rewrite Hb in Hp. }
  destruct (raises_at_first m st joint Hinit Hj Hnot)
    as (js1 & j & js2 & key & Hsplit & Hbefore & Hfail & Hkey & Hnone
        & Hrun & Hown).
  exists js1, j, js2, key. repeat (split; [done|]).
  intros l1 l2 Hsplit' Hbefore'.
  destruct (Hown l1 l2 Hsplit' Hbefore') as [-> ->].
  repeat (split; [done|]).
  rewrite Hb in Hkey. by rewrite decide_False in Hkey by (by intros [? ?]).
Qed.

Lemma in_range_at_true st joint key :
  in_range_at st joint key = true ->
  exists v lo hi,
    bound (env_action st) joint key = Some v /\
    bound (min_action (self st)) joint key = Some lo /\
    bound (max_action (self st)) joint key = Some hi /\
    (lo <= v <= hi)%Q.
Proof.
  unfold in_range_at.
  destruct (bound (env_action st) joint key) as [v|]; [|done].
  destruct (bound (min_action (self st)) joint key) as [lo|]; [|done].
  destruct (bound (max_action (self st)) joint key) as [hi|]; [|done].
  intros [H1 H2]%andb_true_iff. apply Qle_bool_iff in H1, H2.
  by exists v, lo, hi.
Qed.

(** * Further properties of the constructor *)

(** X1: a constructed environment comes from a model whose joint names are
    the six expected ones, as a set, whose joint indices lie inside the
    joint list and the four limit vectors, and whose limits, once converted
    to [float32], are ordered: low end below or at the high end for the
    position, velocity, torque and maximum-torque boxes. *)
Theorem init_success_conditions (m : Model) (env : UpkieServos) :
  init m = inr env ->
  (list_to_set (joint_names m) : gset string) = list_to_set JOINT_NAMES /\
  forall name, name ∈ joint_names m ->
    exists qlo qhi v tau,
      joint_limits m name = Some (qlo, qhi, v, tau) /\
      (np_float32 qlo <= np_float32 qhi)%Q /\
      (np_float32 (- v) <= np_float32 v)%Q /\
      (np_float32 (- tau) <= np_float32 tau)%Q /\
      (np_float32 0 <= np_float32 tau)%Q.
Proof.
  intros Hinit. destruct (init_inv _ _ Hinit) as [Hd _].
  split; [by apply joints_differ_false|].
  unfold init in Hinit. rewrite Hd in Hinit.
  destruct (init_loop m (joint_names m) empty_building) as [e|b] eqn:Hb;
    simpl in Hinit; [done|].
  intros name Hin.
  destruct (init_loop_valid _ _ _ _ Hb name Hin)
    as (qlo & qhi & v & tau & Hlim & Hvalid).
  exists qlo, qhi, v, tau. split; [done|].
  unfold boxes_valid, box_ok in Hvalid.
  repeat (apply andb_true_iff in Hvalid as [Hvalid ?]).
  repeat match goal with
         | H : negb _ = true |- _ => apply negb_true_iff, Qltb_ge in H
         end.
  done.
Qed.

Lemma env_joint_known m env joint :
  init m = inr env ->
  is_Some (default_action env !! joint) \/ is_Some (max_action env !! joint) \/
  is_Some (min_action env !! joint) \/ is_Some (action_space env !! joint) \/
  is_Some (observation_space env !! joint) ->
  joint ∈ JOINT_NAMES.
Proof.
  intros Hinit Hsome. destruct (decide (joint ∈ JOINT_NAMES)) as [|Hout]; [done|].
  destruct (init_inv _ _ Hinit) as [_ Hrows].
  destruct (Hrows joint) as [_ Hnone]. specialize (Hnone Hout).
  unfold env_row in Hnone. injection Hnone as H1 H2 H3 H4 H5.
  rewrite H1, H2, H3, H4, H5 in Hsome.
  destruct Hsome as [[? ?]|[[? ?]|[[? ?]|[[? ?]|[? ?]]]]]; done.
Qed.

Lemma table_dom {V} (t : gmap string V) :
  (forall joint, joint ∈ JOINT_NAMES -> is_Some (t !! joint)) ->
  (forall joint, is_Some (t !! joint) -> joint ∈ JOINT_NAMES) ->
  dom t = list_to_set JOINT_NAMES.
Proof.
  intros Hin Hout. apply set_eq. intros joint.
  rewrite elem_of_dom, elem_of_list_to_set. split; [apply Hout | apply Hin].
Qed.

(** X3: after a successful construction each of the five dictionaries has
    exactly the six joint names as keys; every row of the minimum and
    maximum tables has exactly the six fields, and every row of the default
    table exactly the four fields that have a default: never position or
    velocity. *)
Theorem init_table_keys (m : Model) (env : UpkieServos) :
  init m = inr env ->
  (dom (default_action env) = list_to_set JOINT_NAMES /\
   dom (min_action env) = list_to_set JOINT_NAMES /\
   dom (max_action env) = list_to_set JOINT_NAMES /\
   dom (action_space env) = list_to_set JOINT_NAMES /\
   dom (observation_space env) = list_to_set JOINT_NAMES) /\
  (forall joint d, default_action env !! joint = Some d ->
     dom d = list_to_set DEFAULT_KEYS) /\
  (forall joint r, min_action env !! joint = Some r ->
     dom r = list_to_set ACTION_KEYS) /\
  (forall joint r, max_action env !! joint = Some r ->
     dom r = list_to_set ACTION_KEYS).
Proof.
  intros Hinit.
  assert (forall joint, joint ∈ JOINT_NAMES ->
    exists qlo qhi v tau,
      default_action env !! joint = Some (joint_default tau) /\
      max_action env !! joint = Some (joint_max qhi v tau) /\
      min_action env !! joint = Some (joint_min qlo v tau) /\
      action_space env !! joint = Some (joint_boxes qlo qhi v tau) /\
      observation_space env !! joint = Some (joint_boxes qlo qhi v tau)) as Hrow.
  { intros joint Hj.
    destruct (env_tables _ _ _ Hinit Hj) as (qlo & qhi & v & tau & _ & H).
    by exists qlo, qhi, v, tau. }
  split; [|split; [|split]].
  - repeat split; apply table_dom;
      try (intros joint Hj;
           destruct (Hrow joint Hj)
             as (? & ? & ? & ? & H1 & H2 & H3 & H4 & H5);
           rewrite ?H1, ?H2, ?H3, ?H4, ?H5; by eexists);
      intros joint Hsome; apply (env_joint_known m env joint Hinit); tauto.
  - intros joint d Hd.
    assert (joint ∈ JOINT_NAMES) as Hj
      by (apply (env_joint_known m env joint Hinit); left; by eexists).
    destruct (Hrow joint Hj) as (? & ? & ? & tau & H1 & _).
    rewrite H1 in Hd. injection Hd as <-.
    unfold joint_default, DEFAULT_KEYS. rewrite !dom_insert_L. set_solver.
  - intros joint r Hr.
    assert (joint ∈ JOINT_NAMES) as Hj
      by (apply (env_joint_known m env joint Hinit); right; right; left;
          by eexists).
    destruct (Hrow joint Hj) as (? & ? & ? & tau & _ & _ & H3 & _).
    rewrite H3 in Hr. injection Hr as <-.
    unfold joint_min, ACTION_KEYS. rewrite !dom_insert_L. set_solver.
  - intros joint r Hr.
    assert (joint ∈ JOINT_NAMES) as Hj
      by (apply (env_joint_known m env joint Hinit); right; left; by eexists).
    destruct (Hrow joint Hj) as (? & ? & ? & tau & _ & H2 & _).
    rewrite H2 in Hr. injection Hr as <-.
    unfold joint_max, ACTION_KEYS. rewrite !dom_insert_L. set_solver.
Qed.

Lemma joint_default_dom tau :
  dom (joint_default tau) = list_to_set DEFAULT_KEYS.
Proof.
  unfold joint_default, DEFAULT_KEYS. rewrite !dom_insert_L. set_solver.
Qed.

Lemma joint_boxes_dom qlo qhi v tau :
  dom (joint_boxes qlo qhi v tau) = list_to_set ACTION_KEYS.
Proof.
  unfold joint_boxes, ACTION_KEYS. rewrite !dom_insert_L. set_solver.
Qed.

(** X4: when the model's torque limits are not negative, every value of the
    default table lies within the bounds of its joint and field, so that
    clamping a default never changes it. *)
Theorem init_defaults_in_bounds (m : Model) (env : UpkieServos)
    (joint key : string) (d : Q) :
  init m = inr env ->
  limits_ok m = true ->
  bound (default_action env) joint key = Some d ->
  exists lo hi,
    bound (min_action env) joint key = Some lo /\
    bound (max_action env) joint key = Some hi /\
    (lo <= d <= hi)%Q /\ clamp d lo hi = d.
Proof.
  intros Hinit Hok Hd.
  assert (joint ∈ JOINT_NAMES) as Hj.
  { apply (env_joint_known m env joint Hinit). left. unfold bound in Hd.
    destruct (default_action env !! joint); [by eexists|done]. }
  destruct (env_fields _ _ _ Hinit Hj)
    as (qlo & qhi & v & tau & Hlim & Hdef & Hmin & Hmax).
  destruct (env_tables_limits _ _ _ _ _ _ _ Hinit Hok Hj Hlim) as (_ & _ & Ht).
  destruct (env_tables _ _ _ Hinit Hj)
    as (? & ? & ? & tau' & _ & Hrow & _).
  assert (key ∈ DEFAULT_KEYS) as Hkey.
  { unfold bound in Hd. rewrite Hrow in Hd. simpl in Hd.
    rewrite <- (elem_of_list_to_set (C := gset string)),
      <- (joint_default_dom tau'), elem_of_dom. by eexists. }
  destruct Hdef as (_ & _ & Hd1 & Hd2 & Hd3 & Hd4).
  destruct Hmin as (_ & _ & Hn1 & Hn2 & Hn3 & Hn4).
  destruct Hmax as (_ & _ & Hx1 & Hx2 & Hx3 & Hx4).
  assert (forall lo hi, (lo <= d)%Q -> (d <= hi)%Q ->
            (lo <= d <= hi)%Q /\ clamp d lo hi = d) as Hin.
  { intros lo hi H1 H2. split; [done|].
    by destruct (clamp_inside d lo hi EmptyString H1 H2). }
  unfold DEFAULT_KEYS in Hkey. set_unfold in Hkey.
  destruct Hkey as [->|[->|[->|[->|[]]]]].
  - rewrite Hd1 in Hd. injection Hd as <-.
    eexists _, _. split; [done|]. split; [done|]. apply Hin; lra.
  - rewrite Hd2 in Hd. injection Hd as <-.
    eexists _, _. split; [done|]. split; [done|]. apply Hin; lra.
  - rewrite Hd3 in Hd. injection Hd as <-.
    eexists _, _. split; [done|]. split; [done|]. apply Hin; lra.
  - rewrite Hd4 in Hd. injection Hd as <-.
    eexists _, _. split; [done|]. split; [done|]. apply Hin; lra.
Qed.

Lemma space_row_bounds qlo qhi v tau key box :
  joint_boxes qlo qhi v tau !! key = Some box ->
  exists lo hi,
    joint_min qlo v tau !! key = Some lo /\
    joint_max qhi v tau !! key = Some hi /\
    low box = np_float32 lo /\ high box = np_float32 hi /\
    shape box = [1%nat] /\ dtype box = float32.
Proof.
  intros Hrow.
  assert (key ∈ ACTION_KEYS) as Hkey.
  { rewrite <- (elem_of_list_to_set (C := gset string)),
      <- (joint_boxes_dom qlo qhi v tau), elem_of_dom. by eexists. }
  each_key Hkey;
    (assert (forall b, joint_boxes qlo qhi v tau !! _ = Some b -> Some b = Some box)
       as Heq by (intros b Hb; by rewrite <- Hb, Hrow));
    specialize (Heq _ eq_refl); injection Heq as <-;
    eexists _, _; repeat split; reflexivity.
Qed.

Lemma space_row m env sp joint key box :
  init m = inr env ->
  sp = action_space env \/ sp = observation_space env ->
  box_at sp joint key = Some box ->
  exists qlo qhi v tau,
    min_action env !! joint = Some (joint_min qlo v tau) /\
    max_action env !! joint = Some (joint_max qhi v tau) /\
    joint_boxes qlo qhi v tau !! key = Some box.
Proof.
  intros Hinit Hsp Hbox.
  assert (joint ∈ JOINT_NAMES) as Hj.
  { apply (env_joint_known m env joint Hinit). unfold box_at in Hbox.
    destruct Hsp as [-> | ->].
    - right; right; right; left.
      destruct (action_space env !! joint); [by eexists|done].
    - right; right; right; right.
      destruct (observation_space env !! joint); [by eexists|done]. }
  destruct (env_tables _ _ _ Hinit Hj)
    as (qlo & qhi & v & tau & _ & _ & Hmax & Hmin & Ha & Ho).
  exists qlo, qhi, v, tau. split; [done|]. split; [done|].
  unfold box_at in Hbox. destruct Hsp as [-> | ->].
  - by rewrite Ha in Hbox.
  - by rewrite Ho in Hbox.
Qed.

(** X5: the ranges of the two space descriptors are the bounds used for
    clamping, in single precision: every box of [action_space] and of
    [observation_space] is a one-element [float32] box whose low and high
    ends are the [float32] conversions of the entries of [min_action] and
    [max_action] for the same joint and field. *)
Theorem init_spaces_match_bounds (m : Model) (env : UpkieServos)
    (sp : gmap string (gmap string Box)) (joint key : string) (box : Box) :
  init m = inr env ->
  sp = action_space env \/ sp = observation_space env ->
  box_at sp joint key = Some box ->
  exists lo hi,
    bound (min_action env) joint key = Some lo /\
    bound (max_action env) joint key = Some hi /\
    low box = np_float32 lo /\ high box = np_float32 hi /\
    shape box = [1%nat] /\ dtype box = float32.
Proof.
  intros Hinit Hsp Hbox.
  destruct (space_row m env sp joint key box Hinit Hsp Hbox)
    as (qlo & qhi & v & tau & Hmin & Hmax & Hrow).
  unfold bound. rewrite Hmin, Hmax. cbn [mbind option_bind].
  by apply space_row_bounds.
Qed.

(** * Further properties of the translator *)

Lemma returns_supplied m st batch :
  init m = inr (self st) ->
  fst (run get_spine_action st) = inr batch ->
  forall joint, joint ∈ JOINT_NAMES ->
    supplies_required (env_action st) joint.
Proof.
  intros Hinit Hrun joint Hj.
  destruct (decide (supplies_required (env_action st) joint)) as [|Hnot];
    [done|].
  destruct (raises_some_missing m st joint Hinit Hj Hnot)
    as (j & key & w & _ & _ & _ & Hraise).
  rewrite Hraise in Hrun. discriminate Hrun.
Qed.

(** X6: for a constructed environment the call returns a batch exactly when
    the action supplies position and velocity for all six joints; otherwise
    it raises an [ActionError] naming a required field the action lacks.
    No [KeyError] of the dictionaries involved ever reaches the caller. *)
Theorem get_spine_action_returns_iff (m : Model) (st : Store) :
  init m = inr (self st) ->
  ((exists batch, fst (run get_spine_action st) = inr batch) <->
   (forall joint, joint ∈ JOINT_NAMES ->
      supplies_required (env_action st) joint)) /\
  (forall e, fst (run get_spine_action st) = inl e ->
     exists joint key,
       joint ∈ JOINT_NAMES /\ (key = "position" \/ key = "velocity") /\
       bound (env_action st) joint key = None /\
       e = ActionError (missing_key_message key joint)).
Proof.
  intros Hinit. split; [split|].
  - intros [batch Hrun]. by eapply returns_supplied.
  - intros Hsup. destruct (spine_ok m st Hinit Hsup) as (servo & Hrun & _).
    rewrite Hrun. by eexists.
  - intros e Hrun.
    destruct (decide (Forall (supplies_required (env_action st)) JOINT_NAMES))
      as [Hall|Hsome].
    + rewrite Forall_forall in Hall.
      destruct (spine_ok m st Hinit Hall) as (servo & Hok & _).
      rewrite Hok in Hrun. discriminate Hrun.
    + apply not_Forall_Exists in Hsome; [|apply _].
      apply Exists_exists in Hsome as (joint & Hj & Hnot).
      destruct (raises_some_missing m st joint Hinit Hj Hnot)
        as (j & key & w & Hjin & Hkey & Hnone & Hraise).
      rewrite Hraise in Hrun. injection Hrun as <-. by exists j, key.
Qed.

(** X7: the call only appends to the log. What was logged before is kept,
    and neither the result nor the warnings appended depend on it. *)
Theorem get_spine_action_appends (st : Store) (l : list Warning) :
  exists w,
    log (snd (run get_spine_action st)) = log st ++ w /\
    log (snd (run get_spine_action (set_log st l))) = l ++ w /\
    fst (run get_spine_action (set_log st l)) = fst (run get_spine_action st).
Proof.
  destruct (log_only_get_spine_action st) as (r & w & Hrun).
  exists w. pose proof (Hrun (log st)) as Hfirst.
  rewrite set_log_self in Hfirst. by rewrite Hfirst, Hrun.
Qed.

Lemma flat_map_ext_in {A B} (f g : A -> list B) (l : list A) :
  (forall x, x ∈ l -> f x = g x) -> flat_map f l = flat_map g l.
Proof.
  induction l as [|x l IH]; simpl; intros Hall; [done|].
  rewrite (Hall x) by (by left). f_equal. apply IH.
  intros y Hy. apply Hall. by right.
Qed.

Lemma supplied_entry (a : gmap string (gmap string Q)) joint :
  is_Some (bound a joint "position") -> is_Some (a !! joint).
Proof.
  unfold bound. destruct (a !! joint); [by eexists|by intros [? ?]].
Qed.

Lemma value_at_bound st joint key :
  is_Some (env_action st !! joint) ->
  value_at st joint key =
  match bound (env_action st) joint key with
  | Some v => Some v
  | None => bound (default_action (self st)) joint key
  end.
Proof.
  intros [entry He]. rewrite (value_at_entry _ _ _ _ He).
  unfold bound. by rewrite He.
Qed.

(** Two stores with the same tables and actions that agree on a field of a
    joint present in both resolve, write and log the same for it. *)
Lemma field_agree st st' joint key :
  self st' = self st ->
  is_Some (env_action st !! joint) -> is_Some (env_action st' !! joint) ->
  bound (env_action st) joint key = bound (env_action st') joint key ->
  out_at st' joint key = out_at st joint key /\
  warn_at st' joint key = warn_at st joint key.
Proof.
  intros Hself He He' Hb. unfold out_at, warn_at.
  by rewrite (value_at_bound _ _ _ He), (value_at_bound _ _ _ He'), Hself, Hb.
Qed.

Lemma servo_ext (servo servo' : gmap string (gmap string Q)) :
  complete_batch {["servo" := servo]} ->
  complete_batch {["servo" := servo']} ->
  (forall joint key, joint ∈ JOINT_NAMES -> key ∈ ACTION_KEYS ->
     bound servo joint key = bound servo' joint key) ->
  servo = servo'.
Proof.
  intros (s & Hs & Hdom & Hrows) (s' & Hs' & Hdom' & Hrows') Hsame.
  apply (f_equal (.!! "servo")) in Hs, Hs'.
  rewrite !lookup_singleton_eq in Hs, Hs'.
  injection Hs as <-. injection Hs' as <-.
  apply map_eq. intros joint.
  destruct (decide (joint ∈ JOINT_NAMES)) as [Hj|Hj].
  - assert (is_Some (servo !! joint)) as [sa Hsa]
      by (by rewrite <- elem_of_dom, Hdom, elem_of_list_to_set).
    assert (is_Some (servo' !! joint)) as [sa' Hsa']
      by (by rewrite <- elem_of_dom, Hdom', elem_of_list_to_set).
    rewrite Hsa, Hsa'. f_equal. apply map_eq. intros key.
    destruct (decide (key ∈ ACTION_KEYS)) as [Hk|Hk].
    + specialize (Hsame joint key Hj Hk). unfold bound in Hsame.
      by rewrite Hsa, Hsa' in Hsame.
    + assert (sa !! key = None) as ->.
      { apply not_elem_of_dom. rewrite (Hrows joint sa Hsa).
        by rewrite elem_of_list_to_set. }
      symmetry. apply not_elem_of_dom. rewrite (Hrows' joint sa' Hsa').
      by rewrite elem_of_list_to_set.
  - assert (servo !! joint = None) as ->.
    { apply not_elem_of_dom. by rewrite Hdom, elem_of_list_to_set. }
    symmetry. apply not_elem_of_dom. by rewrite Hdom', elem_of_list_to_set.
Qed.

(** X8: the call reads nothing but the six fields of the six joints. Two
    actions that agree on those thirty-six entries, whatever other joints
    or fields they hold, give the same result and the same warnings. *)
Theorem get_spine_action_ignores_other_keys (m : Model) (st : Store)
    (a' : gmap string (gmap string Q)) :
  init m = inr (self st) ->
  (forall joint key, joint ∈ JOINT_NAMES -> key ∈ ACTION_KEYS ->
     bound a' joint key = bound (env_action st) joint key) ->
  fst (run get_spine_action (with_action st a'))
    = fst (run get_spine_action st) /\
  log (snd (run get_spine_action (with_action st a')))
    = log (snd (run get_spine_action st)).
Proof.
  intros Hinit Hagree. set (st' := with_action st a').
  assert (init m = inr (self st')) as Hinit' by exact Hinit.
  assert (forall joint, joint ∈ JOINT_NAMES ->
            supplies_required (env_action st) joint ->
            supplies_required (env_action st') joint) as Hfwd.
  { intros joint Hj [Hp Hv]. unfold supplies_required. simpl.
    rewrite !Hagree by (done || in_list). done. }
  assert (forall joint, joint ∈ JOINT_NAMES ->
            supplies_required (env_action st') joint ->
            supplies_required (env_action st) joint) as Hbwd.
  { intros joint Hj [Hp Hv]. unfold supplies_required. simpl in Hp, Hv.
    rewrite !Hagree in Hp, Hv by (done || in_list). done. }
  assert (forall joint key, joint ∈ JOINT_NAMES -> key ∈ ACTION_KEYS ->
            is_Some (bound (env_action st) joint "position") ->
            out_at st' joint key = out_at st joint key /\
            warn_at st' joint key = warn_at st joint key) as Hfield.
  { intros joint key Hj Hkey Hp. apply field_agree; [done| | |].
    - by apply supplied_entry.
    - apply supplied_entry. simpl. by rewrite Hagree by (done || in_list).
    - simpl. symmetry. by apply Hagree. }
  destruct (decide (Forall (supplies_required (env_action st)) JOINT_NAMES))
    as [Hall|Hsome].
  - rewrite Forall_forall in Hall.
    destruct (spine_ok m st Hinit Hall) as (servo & Hrun & Hc & Hval).
    destruct (spine_ok m st' Hinit')
      as (servo' & Hrun' & Hc' & Hval'); [by auto|].
    rewrite Hrun, Hrun'. unfold add_log. cbn [fst snd log].
    assert (servo' = servo) as ->.
    { apply servo_ext; [done..|]. intros joint key Hj Hkey.
      destruct (Hval joint key Hj Hkey) as [-> _].
      destruct (Hval' joint key Hj Hkey) as [-> _].
      apply Hfield; [done..|]. by destruct (Hall joint Hj). }
    split; [done|]. apply (f_equal (app (log st))).
    apply flat_map_ext_in. intros joint Hj.
    apply flat_map_ext_in. intros key Hkey.
    apply Hfield; [done..|]. by destruct (Hall joint Hj).
  - apply not_Forall_Exists in Hsome; [|apply _].
    apply Exists_exists in Hsome as (joint0 & Hj0 & Hnot0).
    destruct (first_failing (supplies_required (env_action st)) _ _ Hj0 Hnot0)
      as (js1 & joint & js2 & Hsplit & Hbefore & Hfail).
    assert (joint ∈ JOINT_NAMES) as Hj
      by (rewrite Hsplit; apply elem_of_app; right; by left).
    assert (forall j, j ∈ js1 -> j ∈ JOINT_NAMES) as Hjs1
      by (intros j Hin; rewrite Hsplit; apply elem_of_app; by left).
    destruct (raises_first_missing m st js1 joint js2 Hinit Hsplit Hbefore Hfail)
      as (key & Hkey & _ & Hrun).
    destruct (raises_first_missing m st' js1 joint js2 Hinit' Hsplit)
      as (key' & Hkey' & _ & Hrun'); [by auto|by auto|].
    assert (key' = key) as ->.
    { rewrite Hkey, Hkey'. simpl. by rewrite Hagree by (done || in_list). }
    rewrite Hrun, Hrun'. unfold add_log. cbn [fst snd log].
    split; [done|]. apply (f_equal (app (log st))). f_equal.
    + apply flat_map_ext_in. intros j Hin.
      apply flat_map_ext_in. intros k Hk.
      apply Hfield; [by apply Hjs1|done|]. by destruct (Hbefore j Hin).
    + apply flat_map_ext_in. intros k Hk. unfold keys_before in Hk.
      case_decide as Hvel; [|by apply elem_of_nil in Hk].
      apply list_elem_of_singleton in Hk as ->.
      apply Hfield; [done|in_list|]. rewrite Hkey in Hvel.
      case_decide; [done|discriminate Hvel].
Qed.

(** The call on an action whose thirty-six values all lie within bounds. *)
Lemma run_in_range st :
  (forall joint key, joint ∈ JOINT_NAMES -> key ∈ ACTION_KEYS ->
     exists v lo hi,
       bound (env_action st) joint key = Some v /\
       bound (min_action (self st)) joint key = Some lo /\
       bound (max_action (self st)) joint key = Some hi /\
       (lo <= v <= hi)%Q) ->
  exists servo,
    run get_spine_action st = (inr {["servo" := servo]}, st) /\
    complete_batch {["servo" := servo]} /\
    forall joint key, joint ∈ JOINT_NAMES -> key ∈ ACTION_KEYS ->
      bound servo joint key = bound (env_action st) joint key.
Proof.
  intros Hall.
  assert (forall joint key, joint ∈ JOINT_NAMES -> key ∈ ACTION_KEYS ->
            out_at st joint key = bound (env_action st) joint key /\
            is_Some (out_at st joint key) /\
            warn_at st joint key = []) as Hfield.
  { intros joint key Hj Hkey.
    destruct (Hall joint key Hj Hkey) as (v & lo & hi & Hv & Hlo & Hhi & H1 & H2).
    unfold out_at, warn_at.
    rewrite (value_at_supplied _ _ _ _ Hv), Hlo, Hhi, Hv. cbn [mbind option_bind].
    destruct (clamp_inside v lo hi (clamp_label joint key) H1 H2) as [-> ->].
    eauto. }
  assert (forall joint, joint ∈ JOINT_NAMES -> joint_ok st joint) as Hok.
  { intros joint Hj key Hkey. by apply Hfield. }
  destruct (spine_loop_ok JOINT_NAMES ∅ st Hok) as (servo & Hrun & Hin & Hout).
  exists servo. split; [|split].
  - change get_spine_action with (for_ JOINT_NAMES joint_step {["servo" := ∅]}).
    rewrite Hrun, flat_map_nil, add_log_nil; [done|].
    intros joint Hj. apply flat_map_nil. intros key Hkey. by apply Hfield.
  - apply (entries_complete servo st); [done..|].
    intros joint Hj. by rewrite (Hout joint Hj).
  - intros joint key Hj Hkey. destruct (Hin joint Hj) as (sa & Hsa & Hkeys & _).
    unfold bound at 1. rewrite Hsa. cbn [mbind option_bind].
    rewrite (Hkeys key Hkey). by apply Hfield.
Qed.

Lemma returned_batch m st batch :
  init m = inr (self st) ->
  fst (run get_spine_action st) = inr batch ->
  exists servo,
    batch = {["servo" := servo]} /\ servo_of batch = servo /\
    run get_spine_action st =
      (inr batch, add_log st (flat_map (joint_warnings st) JOINT_NAMES)) /\
    complete_batch batch /\
    forall joint key, joint ∈ JOINT_NAMES -> key ∈ ACTION_KEYS ->
      bound servo joint key = out_at st joint key /\
      is_Some (out_at st joint key).
Proof.
  intros Hinit Hret.
  destruct (spine_ok m st Hinit (returns_supplied m st batch Hinit Hret))
    as (servo & Hrun & Hc & Hval).
  rewrite Hrun in Hret. injection Hret as <-.
  exists servo. split; [done|]. split; [|done].
  unfold servo_of. by rewrite lookup_singleton_eq.
Qed.

(** X9: translating is idempotent. The joints of a returned batch, given
    back as an action to an environment with consistent limits, come out as
    the same batch, and nothing is logged. *)
Theorem get_spine_action_idempotent (m : Model) (st : Store)
    (batch : gmap string (gmap string (gmap string Q))) :
  init m = inr (self st) ->
  limits_ok m = true ->
  fst (run get_spine_action st) = inr batch ->
  run get_spine_action (with_action st (servo_of batch))
    = (inr batch, with_action st (servo_of batch)).
Proof.
  intros Hinit Hok Hret.
  destruct (returned_batch m st batch Hinit Hret)
    as (servo & -> & -> & _ & Hc & Hval).
  destruct (run_in_range (with_action st servo))
    as (servo' & Hrun & Hc' & Hsame).
  - intros joint key Hj Hkey. cbn [with_action env_action self].
    destruct (Hval joint key Hj Hkey) as [Hb [out Hout]].
    destruct (env_bounds _ _ _ _ Hinit Hj Hkey) as (lo & hi & Hlo & Hhi & Hle).
    exists out, lo, hi. rewrite Hb. split; [done|]. split; [done|].
    split; [done|]. unfold out_at in Hout. rewrite Hlo, Hhi in Hout.
    destruct (value_at st joint key) as [v|]; simpl in Hout; [|done].
    injection Hout as <-. apply clamp_range. by apply Hle.
  - rewrite Hrun. f_equal. f_equal. f_equal. by apply servo_ext.
Qed.

Lemma length_flat_map_le {A B} (f : A -> list B) (l : list A) (n : nat) :
  (forall x, x ∈ l -> (length (f x) <= n)%nat) ->
  (length (flat_map f l) <= n * length l)%nat.
Proof.
  induction l as [|x l IH]; simpl; intros Hall; [lia|].
  rewrite length_app.
  assert (length (f x) <= n)%nat by (apply Hall; by left).
  assert (length (flat_map f l) <= n * length l)%nat
    by (apply IH; intros y Hy; apply Hall; by right).
  lia.
Qed.

Lemma elem_of_flat_map_inv {A B} (f : A -> list B) (l : list A) y :
  y ∈ flat_map f l -> exists x, x ∈ l /\ y ∈ f x.
Proof.
  rewrite list_elem_of_In, in_flat_map. intros (x & Hx & Hy).
  exists x. by rewrite !list_elem_of_In.
Qed.

Lemma clamp_log_length v lo hi label :
  (length (clamp_log v lo hi label) <= 1)%nat.
Proof.
  unfold clamp_log. destruct (Qltb hi v); [done|].
  destruct (Qltb v lo); simpl; lia.
Qed.

Lemma warn_at_length st joint key : (length (warn_at st joint key) <= 1)%nat.
Proof.
  unfold warn_at. destruct (value_at st joint key); [|simpl; lia].
  destruct (bound (min_action (self st)) joint key); [|simpl; lia].
  destruct (bound (max_action (self st)) joint key); [|simpl; lia].
  apply clamp_log_length.
Qed.

(** X10: a call that returns has logged one warning for each field whose
    resolved value was outside its bounds and no other, in the order of
    the loops: at most thirty-six. Each warning carries the label of its
    joint and field, the resolved value, and as clamped value the one the
    batch holds for that field. *)
Theorem get_spine_action_warnings (m : Model) (st : Store)
    (batch : gmap string (gmap string (gmap string Q))) :
  init m = inr (self st) ->
  limits_ok m = true ->
  fst (run get_spine_action st) = inr batch ->
  exists w,
    log (snd (run get_spine_action st)) = log st ++ w /\
    w = flat_map (fun joint => flat_map (warn_at st joint) ACTION_KEYS)
          JOINT_NAMES /\
    (length w <= 36)%nat /\
    (forall x, x ∈ w ->
      exists joint key lo hi,
        joint ∈ JOINT_NAMES /\ key ∈ ACTION_KEYS /\
        w_label x = clamp_label joint key /\
        value_at st joint key = Some (w_value x) /\
        bound (min_action (self st)) joint key = Some lo /\
        bound (max_action (self st)) joint key = Some hi /\
        (w_value x < lo \/ hi < w_value x)%Q /\
        bound (servo_of batch) joint key = Some (w_clamped x)) /\
    (forall joint key v lo hi,
       joint ∈ JOINT_NAMES -> key ∈ ACTION_KEYS ->
       value_at st joint key = Some v ->
       bound (min_action (self st)) joint key = Some lo ->
       bound (max_action (self st)) joint key = Some hi ->
       (v < lo \/ hi < v)%Q ->
       exists x, x ∈ w /\ w_label x = clamp_label joint key /\ w_value x = v).
Proof.
  intros Hinit Hok Hret.
  destruct (returned_batch m st batch Hinit Hret)
    as (servo & -> & -> & Hrun & _ & Hval).
  exists (flat_map (joint_warnings st) JOINT_NAMES).
  rewrite Hrun. split; [done|]. split; [done|]. split; [|split].
  - apply (length_flat_map_le _ JOINT_NAMES 6). intros joint _.
    apply (length_flat_map_le _ ACTION_KEYS 1). intros key _.
    apply warn_at_length.
  - intros x Hx.
    apply elem_of_flat_map_inv in Hx as (joint & Hj & Hx).
    apply elem_of_flat_map_inv in Hx as (key & Hkey & Hx).
    destruct (Hval joint key Hj Hkey) as [Hb _].
    destruct (env_bounds _ _ _ _ Hinit Hj Hkey) as (lo & hi & Hlo & Hhi & Hle).
    specialize (Hle Hok).
    exists joint, key, lo, hi. split; [done|]. split; [done|].
    rewrite Hb. unfold warn_at, out_at in *. rewrite Hlo, Hhi in *.
    destruct (value_at st joint key) as [v|]; [|by apply elem_of_nil in Hx].
    cbn [mbind option_bind]. unfold clamp_log, clamp in *.
    destruct (Qltb hi v) eqn:Hhigh.
    + apply list_elem_of_singleton in Hx as ->. simpl.
      apply Qltb_lt in Hhigh. repeat (split; [done|]). split; [by right|done].
    + destruct (Qltb v lo) eqn:Hlow; [|by apply elem_of_nil in Hx].
      apply list_elem_of_singleton in Hx as ->. simpl.
      apply Qltb_lt in Hlow. repeat (split; [done|]). split; [by left|done].
  - intros joint key v lo hi Hj Hkey Hv Hlo Hhi Hout.
    destruct (env_bounds _ _ _ _ Hinit Hj Hkey)
      as (lo' & hi' & Hlo' & Hhi' & Hle).
    rewrite Hlo in Hlo'. rewrite Hhi in Hhi'.
    injection Hlo' as <-. injection Hhi' as <-. specialize (Hle Hok).
    assert (exists c,
      clamp_log v lo hi (clamp_label joint key) =
        [{| w_label := clamp_label joint key; w_value := v;
            w_clamped := c |}]) as [c Hc].
    { destruct Hout as [Hlt|Hlt].
      - exists lo. by apply clamp_below.
      - exists hi. by apply (clamp_above v lo hi). }
    exists {| w_label := clamp_label joint key; w_value := v;
              w_clamped := c |}.
    split; [|split; reflexivity].
    apply (elem_of_flat_map _ _ joint); [done|].
    apply (elem_of_flat_map _ _ key); [done|].
    unfold warn_at. rewrite Hv, Hlo, Hhi, Hc. by left.
Qed.



End Float32.

(** * The example robot *)

(** The conversion to [float32] of the values it holds exactly, as the
    limits of the example robot all are. *)
Definition float32_exact (x : Q) : Q := x.

Definition revolute (i : nat) : JointModel := {| idx_q := i; idx_v := i |}.

Definition example_model : Model :=
  {| names := "universe" :: JOINT_NAMES;
     joints := map revolute [0; 0; 1; 2; 3; 4; 5]%nat;
     q_min := [-1; -2; -3; -1; -2; -3]%Q;
     q_max := [1; 2; 3; 1; 2; 3]%Q;
     v_max := [10; 10; 30; 10; 10; 30]%Q;
     tau_max := [16; 16; 2; 16; 16; 2]%Q |}.

Definition empty_env : UpkieServos :=
  {| action_space := ∅; observation_space := ∅; default_action := ∅;
     max_action := ∅; min_action := ∅ |}.

(** The environment constructed from [example_model], whose limits
    [float32] holds exactly. *)
Definition example_env : UpkieServos :=
  match init float32_exact example_model with
  | inr env => env
  | inl _ => empty_env
  end.

Definition action_of (entries : list (string * list (string * Q)))
    : gmap string (gmap string Q) :=
  list_to_map (map (fun e => (fst e, list_to_map (snd e))) entries).

Definition store_of (a : gmap string (gmap string Q)) : Store :=
  {| env_action := a; self := example_env; log := [] |}.

Definition at_rest : list (string * Q) :=
  [("position", 0%Q); ("velocity", 0%Q)].

(** Position and velocity for every joint, nothing else. *)
Definition neutral_store : Store :=
  store_of (action_of (map (fun j => (j, at_rest)) JOINT_NAMES)).

(** All six fields for every joint, all within bounds. *)
Definition explicit_store : Store :=
  store_of (action_of (map (fun j =>
    (j, [("position", 1%Q); ("velocity", (-3)%Q);
         ("feedforward_torque", (1 # 2)%Q); ("kp_scale", (1 # 2)%Q);
         ("kd_scale", 0%Q); ("maximum_torque", 1%Q)])) JOINT_NAMES)).

(** The left hip is asked a position of 1.5 rad, above its limit of 1 rad. *)
Definition overshoot_store : Store :=
  store_of (action_of
    [("left_hip", [("position", (3 # 2)%Q); ("velocity", 0%Q)]);
     ("left_knee", at_rest); ("left_wheel", at_rest);
     ("right_hip", at_rest); ("right_knee", at_rest);
     ("right_wheel", at_rest)]).

(** The left hip is asked a position above its limit and has no velocity;
    the right wheel has no position. *)
Definition two_faults_store : Store :=
  store_of (action_of
    [("left_hip", [("position", (3 # 2)%Q)]);
     ("left_knee", at_rest); ("left_wheel", at_rest);
     ("right_hip", at_rest); ("right_knee", at_rest);
     ("right_wheel", [("velocity", 0%Q)])]).

(** The left hip has no velocity and the right wheel has no entry. *)
Definition no_wheel_store : Store :=
  store_of (action_of
    [("left_hip", [("position", 0%Q)]);
     ("left_knee", at_rest); ("left_wheel", at_rest);
     ("right_hip", at_rest); ("right_knee", at_rest)]).

(** Only the right wheel, the last joint, has no entry. *)
Definition last_missing_store : Store :=
  store_of (action_of
    [("left_hip", at_rest);
     ("left_knee", at_rest); ("left_wheel", at_rest);
     ("right_hip", at_rest); ("right_knee", at_rest)]).

(** Only the right wheel lacks a field, its velocity. *)
Definition no_velocity_store : Store :=
  store_of (action_of
    [("left_hip", at_rest);
     ("left_knee", at_rest); ("left_wheel", at_rest);
     ("right_hip", at_rest); ("right_knee", at_rest);
     ("right_wheel", [("position", 0%Q)])]).

(** A model whose left hip is called otherwise. *)
Definition renamed_model : Model :=
  {| names := ["universe"; "left_ankle"; "left_knee"; "left_wheel";
               "right_hip"; "right_knee"; "right_wheel"];
     joints := joints example_model;
     q_min := q_min example_model;
     q_max := q_max example_model;
     v_max := v_max example_model;
     tau_max := tau_max example_model |}.

(** The example robot with the position limits of the left hip
    exchanged. *)
Definition inverted_model : Model :=
  {| names := names example_model;
     joints := joints example_model;
     q_min := [1; -2; -3; -1; -2; -3]%Q;
     q_max := [-1; 2; 3; 1; 2; 3]%Q;
     v_max := v_max example_model;
     tau_max := tau_max example_model |}.

(** The neutral action with a field and a joint the translator does not
    know. *)
Definition cluttered_action : gmap string (gmap string Q) :=
  action_of
    (("tail", [("position", 7%Q)])
     :: map (fun j => (j, ("temperature", 40%Q) :: at_rest)) JOINT_NAMES).

(** * The theorems on the example robot *)

Lemma float32_exact_mono x y :
  (x <= y)%Q -> (float32_exact x <= float32_exact y)%Q.
Proof. intros H. exact H. Qed.

Lemma example_init : init float32_exact example_model = inr example_env.
Proof.
  assert (succeeded (init float32_exact example_model) = true) as Hs
    by (vm_compute; reflexivity).
  unfold example_env. by destruct (init float32_exact example_model).
Qed.

Ltac all_supplied :=
  apply Forall_forall;
  repeat (constructor; [split; vm_compute; eauto|]); constructor.

(** The scenario of the left hip: a position of 1.5 rad is clamped to the
    limit of 1 rad and one warning is logged. *)
Example run_overshoot :
  batch_value (fst (run get_spine_action overshoot_store))
    "left_hip" "position" = Some 1%Q /\
  log (snd (run get_spine_action overshoot_store)) =
    [{| w_label := "left_hip: position"; w_value := (3 # 2)%Q;
        w_clamped := 1%Q |}].
Proof. split; vm_compute; reflexivity. Qed.

(** The right wheel without velocity. *)
Example run_no_velocity :
  fst (run get_spine_action no_velocity_store) =
    inl (ActionError (missing_key_message "velocity" "right_wheel")) /\
  log (snd (run get_spine_action no_velocity_store)) = [].
Proof. split; vm_compute; reflexivity. Qed.

Lemma init_model_error_witness :
  (exists env, init float32_exact example_model = inr env) /\
  init float32_exact renamed_model =
    inl (ModelError JOINT_NAMES
           ["left_ankle"; "left_knee"; "left_wheel";
            "right_hip"; "right_knee"; "right_wheel"]).
Proof.
  split.
  - apply (init_model_error float32_exact float32_exact_mono example_model).
    + split; [reflexivity|]. repeat constructor; simpl; lia.
    + reflexivity.
    + intros Hdiffer. apply Hdiffer. reflexivity.
  - apply (init_model_error float32_exact float32_exact_mono renamed_model).
    apply (bool_decide_unpack _). vm_compute. exact I.
Defined.

(** C3, a run: the joint names of the model are the six expected ones and
    the model is well formed, but the position limits of its left hip are
    exchanged: the box of that position is refused and the constructor
    raises [ValueError]. *)
Lemma init_inverted_limits :
  wf_model inverted_model /\
  (list_to_set (joint_names inverted_model) : gset string)
    = list_to_set JOINT_NAMES /\
  joint_limits inverted_model "left_hip" = Some (1, (-1), 10, 16)%Q /\
  init float32_exact inverted_model = inl ValueError /\
  ~ (exists env, init float32_exact inverted_model = inr env).
Proof.
  assert (init float32_exact inverted_model = inl ValueError) as Hinit
    by (vm_compute; reflexivity).
  split; [split; [reflexivity|]; repeat constructor; simpl; lia|].
  split; [reflexivity|].
  split; [vm_compute; reflexivity|].
  split; [exact Hinit|].
  intros [env Henv]. rewrite Hinit in Henv. discriminate Henv.
Qed.

Lemma init_bounds_witness :
  wf_model example_model /\
  (list_to_set (joint_names example_model) : gset string)
    = list_to_set JOINT_NAMES /\
  limits_ok example_model = true /\
  exists env, init float32_exact example_model = inr env /\
    bound (min_action env) "left_wheel" "velocity" = Some (-30)%Q /\
    bound (max_action env) "left_wheel" "maximum_torque" = Some 2%Q.
Proof.
  assert (wf_model example_model) as Hwf.
  { split; [reflexivity|]. repeat constructor; simpl; lia. }
  assert ((list_to_set (joint_names example_model) : gset string)
          = list_to_set JOINT_NAMES) as Hsame by reflexivity.
  assert (limits_ok example_model = true) as Hok by reflexivity.
  repeat (split; [assumption|]).
  destruct (init_bounds float32_exact float32_exact_mono example_model Hwf Hsame Hok) as (env & Hinit & Hall).
  exists env. split; [exact Hinit|].
  destruct (Hall "left_wheel" ltac:(in_list))
    as (qlo & qhi & v & tau & Hlim & H).
  vm_compute in Hlim. injection Hlim as <- <- <- <-.
  destruct H as (_ & _ & Hv & _ & _ & _ & _ & _ & _ & _ & _ & Ht & _).
  split; [exact Hv | exact Ht].
Defined.

Lemma observation_space_eq_action_space_witness :
  init float32_exact example_model = inr example_env /\
  observation_space example_env = action_space example_env.
Proof.
  assert (init float32_exact example_model = inr example_env) as Hinit
    by exact example_init.
  split; [exact Hinit|].
  apply (observation_space_eq_action_space float32_exact example_model example_env Hinit).
Defined.

Lemma get_spine_action_complete_in_bounds_witness :
  init float32_exact example_model = inr (self neutral_store) /\
  limits_ok example_model = true /\
  (forall joint, joint ∈ JOINT_NAMES ->
     supplies_required (env_action neutral_store) joint) /\
  exists batch,
    fst (run get_spine_action neutral_store) = inr batch /\
    complete_batch batch.
Proof.
  assert (init float32_exact example_model = inr (self neutral_store)) as Hinit
    by exact example_init.
  assert (limits_ok example_model = true) as Hok by reflexivity.
  assert (forall joint, joint ∈ JOINT_NAMES ->
            supplies_required (env_action neutral_store) joint) as Hsup
    by all_supplied.
  repeat (split; [assumption|]).
  destruct (get_spine_action_complete_in_bounds
              float32_exact example_model neutral_store Hinit Hok Hsup)
    as (batch & servo & Hrun & _ & Hcomplete & _).
  exists batch. split; [exact Hrun | exact Hcomplete].
Defined.

Lemma get_spine_action_clamps_witness :
  init float32_exact example_model = inr (self overshoot_store) /\
  limits_ok example_model = true /\
  (forall j, j ∈ JOINT_NAMES ->
     supplies_required (env_action overshoot_store) j) /\
  value_at overshoot_store "left_hip" "position" = Some (3 # 2)%Q /\
  exists servo w,
    run get_spine_action overshoot_store
      = (inr {["servo" := servo]}, add_log overshoot_store w) /\
    bound servo "left_hip" "position" = Some 1%Q /\
    {| w_label := clamp_label "left_hip" "position";
       w_value := (3 # 2)%Q; w_clamped := 1%Q |} ∈ w.
Proof.
  assert (init float32_exact example_model = inr (self overshoot_store)) as Hinit
    by exact example_init.
  assert (limits_ok example_model = true) as Hok by reflexivity.
  assert (forall j, j ∈ JOINT_NAMES ->
            supplies_required (env_action overshoot_store) j) as Hsup
    by all_supplied.
  assert (value_at overshoot_store "left_hip" "position" = Some (3 # 2)%Q)
    as Hv by (vm_compute; reflexivity).
  repeat (split; [assumption|]).
  destruct (get_spine_action_clamps float32_exact example_model overshoot_store
              "left_hip" "position" (3 # 2)%Q Hinit Hok Hsup
              ltac:(in_list) ltac:(in_list) Hv)
    as (servo & w & Hrun & _ & Habove & _).
  exists servo, w. split; [exact Hrun|].
  apply (Habove 1%Q); [vm_compute; reflexivity | reflexivity].
Defined.

(** C4, a run: the position asked of the left hip, 1.5 rad, is above its
    maximum of 1 rad, but the left hip has no velocity: the call raises
    and returns no batch. *)
Lemma get_spine_action_clamps_missing_field :
  init float32_exact example_model = inr (self two_faults_store) /\
  "left_hip" ∈ JOINT_NAMES /\ "position" ∈ ACTION_KEYS /\
  value_at two_faults_store "left_hip" "position" = Some (3 # 2)%Q /\
  bound (max_action (self two_faults_store)) "left_hip" "position"
    = Some 1%Q /\
  (1 < 3 # 2)%Q /\
  fst (run get_spine_action two_faults_store)
    = inl (ActionError (missing_key_message "velocity" "left_hip")) /\
  succeeded (fst (run get_spine_action two_faults_store)) = false.
Proof.
  split; [exact example_init|].
  split; [in_list|]. split; [in_list|].
  split; [vm_compute; reflexivity|].
  split; [vm_compute; reflexivity|].
  split; [reflexivity|].
  split; vm_compute; reflexivity.
Qed.

Lemma get_spine_action_defaults_witness :
  init float32_exact example_model = inr (self neutral_store) /\
  limits_ok example_model = true /\
  (forall j, j ∈ JOINT_NAMES ->
     supplies_required (env_action neutral_store) j) /\
  exists servo,
    fst (run get_spine_action neutral_store) = inr {["servo" := servo]} /\
    bound servo "left_wheel" "feedforward_torque" = Some 0%Q /\
    bound servo "left_wheel" "kp_scale" = Some 1%Q /\
    bound servo "left_wheel" "kd_scale" = Some 1%Q /\
    bound servo "left_wheel" "maximum_torque" = Some 2%Q.
Proof.
  assert (init float32_exact example_model = inr (self neutral_store)) as Hinit
    by exact example_init.
  assert (limits_ok example_model = true) as Hok by reflexivity.
  assert (forall j, j ∈ JOINT_NAMES ->
            supplies_required (env_action neutral_store) j) as Hsup
    by all_supplied.
  repeat (split; [assumption|]).
  destruct (get_spine_action_defaults float32_exact example_model neutral_store
              "left_wheel" Hinit Hok Hsup ltac:(in_list))
    as (servo & qlo & qhi & v & tau & Hrun & Hlim & H1 & H2 & H3 & H4).
  vm_compute in Hlim. injection Hlim as <- <- <- <-.
  exists servo. split; [exact Hrun|].
  split; [apply H1; vm_compute; reflexivity|].
  split; [apply H2; vm_compute; reflexivity|].
  split; [apply H3; vm_compute; reflexivity|].
  apply H4; vm_compute; reflexivity.
Defined.

(** C5, a run: the entry of the left knee supplies position and velocity
    and leaves out the feedforward torque, but the left hip has no
    velocity: the call raises, and there is no batch to hold the
    default. *)
Lemma get_spine_action_defaults_missing_field :
  init float32_exact example_model = inr (self two_faults_store) /\
  "left_knee" ∈ JOINT_NAMES /\
  bound (env_action two_faults_store) "left_knee" "position" = Some 0%Q /\
  bound (env_action two_faults_store) "left_knee" "velocity" = Some 0%Q /\
  bound (env_action two_faults_store) "left_knee" "feedforward_torque"
    = None /\
  fst (run get_spine_action two_faults_store)
    = inl (ActionError (missing_key_message "velocity" "left_hip")) /\
  batch_value (fst (run get_spine_action two_faults_store))
    "left_knee" "feedforward_torque" = None.
Proof.
  split; [exact example_init|].
  split; [in_list|].
  split; [vm_compute; reflexivity|].
  split; [vm_compute; reflexivity|].
  split; [vm_compute; reflexivity|].
  split; vm_compute; reflexivity.
Qed.

Lemma get_spine_action_in_range_witness :
  (forall joint key, joint ∈ JOINT_NAMES -> key ∈ ACTION_KEYS ->
     exists v lo hi,
       bound (env_action explicit_store) joint key = Some v /\
       bound (min_action (self explicit_store)) joint key = Some lo /\
       bound (max_action (self explicit_store)) joint key = Some hi /\
       (lo <= v <= hi)%Q) /\
  exists servo,
    run get_spine_action explicit_store
      = (inr {["servo" := servo]}, explicit_store) /\
    bound servo "right_knee" "velocity" = Some (-3)%Q.
Proof.
  assert (forall joint key, joint ∈ JOINT_NAMES -> key ∈ ACTION_KEYS ->
     exists v lo hi,
       bound (env_action explicit_store) joint key = Some v /\
       bound (min_action (self explicit_store)) joint key = Some lo /\
       bound (max_action (self explicit_store)) joint key = Some hi /\
       (lo <= v <= hi)%Q) as Hall.
  { intros joint key Hj Hkey. apply in_range_at_true.
    each_joint Hj; each_key Hkey; vm_compute; reflexivity. }
  split; [exact Hall|].
  destruct (get_spine_action_in_range explicit_store Hall)
    as (servo & Hrun & _ & Hsame).
  exists servo. split; [exact Hrun|].
  rewrite (Hsame "right_knee" "velocity" ltac:(in_list) ltac:(in_list)).
  vm_compute. reflexivity.
Defined.

(** C2, a run: the entry of the right wheel leaves out its position, but
    the error raised names the velocity of the left hip, the first missing
    required field in the order of the loops; and the call had logged the
    clamping of the left hip's position before it raised. *)
Lemma get_spine_action_missing_field_other_joint :
  init float32_exact example_model = inr (self two_faults_store) /\
  "right_wheel" ∈ JOINT_NAMES /\
  is_Some (env_action two_faults_store !! "right_wheel") /\
  bound (env_action two_faults_store) "right_wheel" "position" = None /\
  fst (run get_spine_action two_faults_store)
    = inl (ActionError (missing_key_message "velocity" "left_hip")) /\
  fst (run get_spine_action two_faults_store)
    <> inl (ActionError (missing_key_message "position" "right_wheel")) /\
  log two_faults_store = [] /\
  log (snd (run get_spine_action two_faults_store))
    = [{| w_label := "left_hip: position"; w_value := (3 # 2)%Q;
          w_clamped := 1%Q |}].
Proof.
  split; [exact example_init|].
  split; [in_list|].
  split; [vm_compute; eauto|].
  split; [vm_compute; reflexivity|].
  split; [vm_compute; reflexivity|].
  split; [vm_compute; intros H; discriminate H|].
  split; [reflexivity|].
  vm_compute. reflexivity.
Qed.

Lemma get_spine_action_missing_field_witness :
  init float32_exact example_model = inr (self two_faults_store) /\
  "left_hip" ∈ JOINT_NAMES /\
  env_action two_faults_store !! "left_hip"
    = Some (list_to_map [("position", (3 # 2)%Q)]) /\
  fst (run get_spine_action two_faults_store)
    = inl (ActionError (missing_key_message "velocity" "left_hip")).
Proof.
  assert (init float32_exact example_model = inr (self two_faults_store))
    as Hinit by exact example_init.
  assert ("left_hip" ∈ JOINT_NAMES) as Hj by in_list.
  assert (env_action two_faults_store !! "left_hip"
          = Some (list_to_map [("position", (3 # 2)%Q)])) as Hentry
    by (vm_compute; reflexivity).
  repeat (split; [assumption|]).
  destruct (get_spine_action_missing_field float32_exact example_model
              two_faults_store "left_hip" _ Hinit Hj Hentry
              ltac:(right; vm_compute; reflexivity))
    as (js1 & j & js2 & key & _ & _ & _ & _ & _ & Hrun & Hown).
  destruct (Hown [] (tail JOINT_NAMES) eq_refl) as (_ & Hjoint & Hkey).
  { intros j' Hnil. apply elem_of_nil in Hnil. destruct Hnil. }
  vm_compute in Hkey. subst j key. rewrite Hrun. reflexivity.
Defined.

(** C8, a run: the action has no entry for the right wheel, but the error
    raised names the velocity of the left hip, which comes first. *)
Lemma get_spine_action_missing_joint_other_joint :
  init float32_exact example_model = inr (self no_wheel_store) /\
  "right_wheel" ∈ JOINT_NAMES /\
  env_action no_wheel_store !! "right_wheel" = None /\
  fst (run get_spine_action no_wheel_store)
    = inl (ActionError (missing_key_message "velocity" "left_hip")) /\
  fst (run get_spine_action no_wheel_store)
    <> inl (ActionError (missing_key_message "position" "right_wheel")).
Proof.
  split; [exact example_init|].
  split; [in_list|].
  split; [vm_compute; reflexivity|].
  split; [vm_compute; reflexivity|].
  vm_compute; intros H; discriminate H.
Qed.

Lemma get_spine_action_missing_joint_witness :
  init float32_exact example_model = inr (self last_missing_store) /\
  "right_wheel" ∈ JOINT_NAMES /\
  env_action last_missing_store !! "right_wheel" = None /\
  fst (run get_spine_action last_missing_store)
    = inl (ActionError (missing_key_message "position" "right_wheel")).
Proof.
  assert (init float32_exact example_model = inr (self last_missing_store))
    as Hinit by exact example_init.
  assert ("right_wheel" ∈ JOINT_NAMES) as Hj by in_list.
  assert (env_action last_missing_store !! "right_wheel" = None) as Hentry
    by (vm_compute; reflexivity).
  repeat (split; [assumption|]).
  destruct (get_spine_action_missing_joint float32_exact example_model
              last_missing_store "right_wheel" Hinit Hj Hentry)
    as (js1 & j & js2 & key & _ & _ & _ & _ & _ & Hrun & Hown).
  destruct (Hown ["left_hip"; "left_knee"; "left_wheel";
                  "right_hip"; "right_knee"] [] eq_refl)
    as (_ & Hjoint & Hkey).
  { apply Forall_forall.
    repeat (constructor; [split; vm_compute; eauto|]); constructor. }
  subst j key. rewrite Hrun. reflexivity.
Defined.

Lemma init_success_conditions_witness :
  init float32_exact example_model = inr example_env /\
  forall name, name ∈ joint_names example_model ->
    is_Some (joint_limits example_model name).
Proof.
  assert (init float32_exact example_model = inr example_env) as Hinit
    by exact example_init.
  split; [exact Hinit|].
  destruct (init_success_conditions float32_exact example_model example_env
              Hinit) as [_ Hall].
  intros name Hin.
  destruct (Hall name Hin) as (qlo & qhi & v & tau & Hlim & _).
  rewrite Hlim. eexists. reflexivity.
Defined.

Lemma init_table_keys_witness :
  init float32_exact example_model = inr example_env /\
  dom (default_action example_env) = list_to_set JOINT_NAMES.
Proof.
  assert (init float32_exact example_model = inr example_env) as Hinit
    by exact example_init.
  split; [exact Hinit|].
  apply (init_table_keys float32_exact example_model example_env Hinit).
Defined.

Lemma init_defaults_in_bounds_witness :
  init float32_exact example_model = inr example_env /\
  limits_ok example_model = true /\
  bound (default_action example_env) "left_wheel" "maximum_torque"
    = Some 2%Q /\
  exists lo hi,
    bound (min_action example_env) "left_wheel" "maximum_torque" = Some lo /\
    bound (max_action example_env) "left_wheel" "maximum_torque" = Some hi /\
    (lo <= 2 <= hi)%Q.
Proof.
  assert (init float32_exact example_model = inr example_env) as Hinit
    by exact example_init.
  assert (limits_ok example_model = true) as Hok by reflexivity.
  assert (bound (default_action example_env) "left_wheel" "maximum_torque"
          = Some 2%Q) as Hd by (vm_compute; reflexivity).
  repeat (split; [assumption|]).
  destruct (init_defaults_in_bounds float32_exact example_model example_env
              "left_wheel" "maximum_torque" 2%Q Hinit Hok Hd)
    as (lo & hi & Hlo & Hhi & Hrange & _).
  exists lo, hi. split; [exact Hlo|]. split; [exact Hhi | exact Hrange].
Defined.

Lemma init_spaces_match_bounds_witness :
  init float32_exact example_model = inr example_env /\
  exists box lo hi,
    box_at (action_space example_env) "left_knee" "position" = Some box /\
    bound (min_action example_env) "left_knee" "position" = Some lo /\
    bound (max_action example_env) "left_knee" "position" = Some hi /\
    low box = float32_exact lo /\ high box = float32_exact hi.
Proof.
  assert (init float32_exact example_model = inr example_env) as Hinit
    by exact example_init.
  split; [exact Hinit|].
  assert (box_at (action_space example_env) "left_knee" "position"
          = Some {| low := (-2)%Q; high := 2%Q; shape := [1%nat];
                    dtype := float32 |}) as Hbox
    by (vm_compute; reflexivity).
  destruct (init_spaces_match_bounds float32_exact example_model example_env
              (action_space example_env) "left_knee" "position" _
              Hinit (or_introl eq_refl) Hbox)
    as (lo & hi & Hlo & Hhi & Hlow & Hhigh & _).
  eexists _, lo, hi. split; [exact Hbox|].
  split; [exact Hlo|]. split; [exact Hhi|]. split; [exact Hlow | exact Hhigh].
Defined.

Lemma get_spine_action_returns_iff_witness :
  init float32_exact example_model = inr (self no_wheel_store) /\
  ~ (exists batch, fst (run get_spine_action no_wheel_store) = inr batch).
Proof.
  assert (init float32_exact example_model = inr (self no_wheel_store)) as Hinit
    by exact example_init.
  split; [exact Hinit|].
  destruct (get_spine_action_returns_iff float32_exact example_model no_wheel_store Hinit)
    as [[Hreturns _] _].
  intros Hbatch. destruct (Hreturns Hbatch "right_wheel") as [[p Hp] _].
  - in_list.
  - vm_compute in Hp. discriminate Hp.
Defined.

Lemma get_spine_action_ignores_other_keys_witness :
  init float32_exact example_model = inr (self neutral_store) /\
  fst (run get_spine_action (with_action neutral_store cluttered_action))
    = fst (run get_spine_action neutral_store).
Proof.
  assert (init float32_exact example_model = inr (self neutral_store)) as Hinit
    by exact example_init.
  split; [exact Hinit|].
  apply (get_spine_action_ignores_other_keys
           float32_exact example_model neutral_store cluttered_action Hinit).
  intros joint key Hj Hkey.
  each_joint Hj; each_key Hkey; vm_compute; reflexivity.
Defined.

Lemma get_spine_action_idempotent_witness :
  init float32_exact example_model = inr (self overshoot_store) /\
  limits_ok example_model = true /\
  exists batch,
    fst (run get_spine_action overshoot_store) = inr batch /\
    fst (run get_spine_action (with_action overshoot_store (servo_of batch)))
      = inr batch.
Proof.
  assert (init float32_exact example_model = inr (self overshoot_store)) as Hinit
    by exact example_init.
  assert (limits_ok example_model = true) as Hok by reflexivity.
  repeat (split; [assumption|]).
  assert (succeeded (fst (run get_spine_action overshoot_store)) = true)
    as Hs by (vm_compute; reflexivity).
  destruct (fst (run get_spine_action overshoot_store)) as [e|batch] eqn:Hret;
    [discriminate Hs|].
  exists batch. split; [reflexivity|].
  rewrite (get_spine_action_idempotent
             float32_exact example_model overshoot_store batch Hinit Hok Hret).
  reflexivity.
Defined.

Lemma get_spine_action_warnings_witness :
  init float32_exact example_model = inr (self overshoot_store) /\
  limits_ok example_model = true /\
  exists batch w,
    fst (run get_spine_action overshoot_store) = inr batch /\
    log (snd (run get_spine_action overshoot_store))
      = log overshoot_store ++ w /\
    (length w <= 36)%nat.
Proof.
  assert (init float32_exact example_model = inr (self overshoot_store)) as Hinit
    by exact example_init.
  assert (limits_ok example_model = true) as Hok by reflexivity.
  repeat (split; [assumption|]).
  assert (succeeded (fst (run get_spine_action overshoot_store)) = true)
    as Hs by (vm_compute; reflexivity).
  destruct (fst (run get_spine_action overshoot_store)) as [e|batch] eqn:Hret;
    [discriminate Hs|].
  destruct (get_spine_action_warnings
              float32_exact example_model overshoot_store batch Hinit Hok Hret)
    as (w & Hlog & _ & Hlen & _ & _).
  exists batch, w. split; [reflexivity|]. split; [exact Hlog | exact Hlen].
Defined.

